(** * annotation-to-graph: the mutation generator, embedded and verified

    A shallow embedding of [src/generate-mutations.ts] and of the mapping
    table of [src/types.ts], and of the two command-line tools, the loader
    [load.ts] and the preview [index.ts].

    JavaScript strings are sequences of UTF-16 code units; they are modelled
    as [list N].  The built-in string methods the generator calls
    ([toLowerCase], [trim], [replace] with a global regular expression) are
    modelled after ECMA-262.  The one reading of the wall clock
    ([new Date().toISOString()]) is modelled by explicit passing of the
    readings. *)

From Stdlib Require Import Strings.String Strings.Ascii DecimalString.
From Stdlib Require Import List NArith ZArith Bool Lia Arith.
Import ListNotations.

(** ** JavaScript strings *)

Module JS.

Definition jsstring := list N.

(** A literal of the source, given as its ASCII text. *)
Definition lit (s : string) : jsstring :=
  map N_of_ascii (list_ascii_of_string s).

Definition nl : jsstring := [10%N].
Definition dq : jsstring := [34%N].

Fixpoint eqb (a b : jsstring) : bool :=
  match a, b with
  | [], [] => true
  | x :: a', y :: b' => N.eqb x y && eqb a' b'
  | _, _ => false
  end.

Fixpoint isPrefixOf (p s : jsstring) : bool :=
  match p, s with
  | [], _ => true
  | x :: p', y :: s' => N.eqb x y && isPrefixOf p' s'
  | _ :: _, [] => false
  end.

(** [String.prototype.includes]. *)
Fixpoint includes (needle hay : jsstring) : bool :=
  isPrefixOf needle hay ||
  match hay with
  | [] => false
  | _ :: hay' => includes needle hay'
  end.

Section CodeUnits.
Open Scope N_scope.

(** ECMA-262 WhiteSpace and LineTerminator code points: what [trim] strips
    and what [\s] matches. *)
Definition isWhiteSpace (c : N) : bool :=
  ((9 <=? c) && (c <=? 13)) || (c =? 32) || (c =? 160) || (c =? 5760)
  || ((8192 <=? c) && (c <=? 8202)) || (c =? 8232) || (c =? 8233)
  || (c =? 8239) || (c =? 8287) || (c =? 12288) || (c =? 65279).

(** The character class [[a-z0-9_\-]]. *)
Definition isIdChar (c : N) : bool :=
  ((97 <=? c) && (c <=? 122)) || ((48 <=? c) && (c <=? 57))
  || (c =? 95) || (c =? 45).

Definition isAscii (c : N) : bool := c <? 128.

Definition asciiLower (c : N) : N :=
  if (65 <=? c) && (c <=? 90) then c + 32 else c.

End CodeUnits.

(** *** [String.prototype.trim] *)

Fixpoint trimStart (s : jsstring) : jsstring :=
  match s with
  | [] => []
  | c :: t => if isWhiteSpace c then trimStart t else s
  end.

Fixpoint trimEnd (s : jsstring) : jsstring :=
  match s with
  | [] => []
  | c :: t =>
      match trimEnd t with
      | [] => if isWhiteSpace c then [] else [c]
      | t' => c :: t'
      end
  end.

Definition trim (s : jsstring) : jsstring := trimEnd (trimStart s).

(** *** [String.prototype.replace] with a global regular expression

    The generator uses two pattern shapes only: a single character class
    (a backslash, a double quote, a line feed, a carriage return, a tab, and
    the complement of [a-z0-9_-]) and a
    greedy run of a class ([/\s+/g]).  Matching proceeds from left to right;
    a match is replaced and the scan resumes after it. *)

Fixpoint replaceClass (p : N -> bool) (rep : jsstring) (s : jsstring)
  : jsstring :=
  match s with
  | [] => []
  | c :: t =>
      if p c then rep ++ replaceClass p rep t
      else c :: replaceClass p rep t
  end.

(** [inRun] records that the code unit before the scan position belongs to
    the match being consumed. *)
Fixpoint replaceRunsFrom (p : N -> bool) (rep : jsstring) (inRun : bool)
  (s : jsstring) : jsstring :=
  match s with
  | [] => []
  | c :: t =>
      if p c then
        if inRun then replaceRunsFrom p rep true t
        else rep ++ replaceRunsFrom p rep true t
      else c :: replaceRunsFrom p rep false t
  end.

Definition replaceRuns (p : N -> bool) (rep s : jsstring) : jsstring :=
  replaceRunsFrom p rep false s.

(** *** [String.prototype.toLowerCase]

    Lower-casing follows the Unicode default case conversion.  On the Basic
    Latin block it maps [A-Z] to [a-z] and fixes everything else, whatever
    the context.  Outside that block the mapping comes from the Unicode
    character database, may yield several code units and may depend on the
    context (final sigma); it is taken as the table [nonAsciiLower], which
    gives the replacement of the code unit at a position of a string. *)

Definition CaseTable := jsstring -> nat -> jsstring.

Fixpoint lowerFrom (tbl : CaseTable) (whole : jsstring) (i : nat)
  (s : jsstring) : jsstring :=
  match s with
  | [] => []
  | c :: t =>
      (if isAscii c then [asciiLower c] else tbl whole i)
        ++ lowerFrom tbl whole (S i) t
  end.

Definition toLowerCase (tbl : CaseTable) (s : jsstring) : jsstring :=
  lowerFrom tbl s 0 s.

(** A case table that leaves every code unit outside Basic Latin as it is. *)
Definition caselessTable : CaseTable :=
  fun whole i => match nth_error whole i with
                 | Some c => [c]
                 | None => []
                 end.

End JS.

Import JS.

(** ** Insertion-ordered maps with string keys

    A JavaScript [Map] with string keys and a plain object used as a record
    of counts both keep their entries in insertion order; assigning to a key
    that is present keeps its position. *)

Module OMap.

Section WithValues.
Variable V : Type.

Definition t := list (jsstring * V).

Definition empty : t := [].

Fixpoint get (k : jsstring) (m : t) : option V :=
  match m with
  | [] => None
  | (k', v) :: r => if JS.eqb k' k then Some v else get k r
  end.

Definition has (k : jsstring) (m : t) : bool :=
  match get k m with
  | Some _ => true
  | None => false
  end.

Fixpoint set (k : jsstring) (v : V) (m : t) : t :=
  match m with
  | [] => [(k, v)]
  | (k', v') :: r =>
      if JS.eqb k' k then (k', v) :: r else (k', v') :: set k v r
  end.

Definition keys (m : t) : list jsstring := map fst m.
Definition values (m : t) : list V := map snd m.

End WithValues.

Arguments get {V} k m.
Arguments has {V} k m.
Arguments set {V} k v m.
Arguments keys {V} m.
Arguments values {V} m.

End OMap.

(** ** The annotation types and the mapping table ([types.ts]) *)

Inductive EntityCategory :=
| organization
| program
| service
| benefit
| citizen_attribute
| value
| official_role
| region
| delivery_node
| document
| domain_issue.

(** The string a category is at run time. *)
Definition categoryName (c : EntityCategory) : jsstring :=
  match c with
  | organization => lit "organization"
  | program => lit "program"
  | service => lit "service"
  | benefit => lit "benefit"
  | citizen_attribute => lit "citizen_attribute"
  | value => lit "value"
  | official_role => lit "official_role"
  | region => lit "region"
  | delivery_node => lit "delivery_node"
  | document => lit "document"
  | domain_issue => lit "domain_issue"
  end.

Definition allCategories : list EntityCategory :=
  [organization; program; service; benefit; citizen_attribute; value;
   official_role; region; delivery_node; document; domain_issue].

Record AnnotationEntity := {
  id : jsstring;
  text : jsstring;
  start : Z;
  end_ : Z;
  category : EntityCategory
}.

Record AnnotationRelationship := {
  rel_id : jsstring;
  source_entity_id : jsstring;
  target_entity_id : jsstring;
  type : jsstring;
  label : jsstring
}.

Record DocumentDescriptor := {
  doc_id : jsstring;
  path : jsstring;
  subject : jsstring
}.

Record AnnotationDocument := {
  document_ : DocumentDescriptor;
  entities : list AnnotationEntity;
  relationships_ : option (list AnnotationRelationship);
  saved_at : option jsstring
}.

Record DgraphTypeMapping := {
  dgraphType : jsstring;
  nameIdPrefix : jsstring;
  nameField : jsstring
}.

Definition CATEGORY_TYPE_MAP (c : EntityCategory) : DgraphTypeMapping :=
  match c with
  | organization =>
      {| dgraphType := lit "_Indian_Union_Government_Ministry_";
         nameIdPrefix := lit "org";
         nameField := lit "indian_union_government_ministry" |}
  | program =>
      {| dgraphType := lit "_Indian_Union_Government_Ministry_Program_";
         nameIdPrefix := lit "prog";
         nameField := lit "indian_union_government_ministry_program" |}
  | service =>
      {| dgraphType := lit "_Indian_Union_Government_Service_";
         nameIdPrefix := lit "svc";
         nameField := lit "indian_union_government_service" |}
  | benefit =>
      {| dgraphType := lit "_Indian_Union_Government_Service_Benefit_";
         nameIdPrefix := lit "ben";
         nameField := lit "indian_union_government_service_benefit" |}
  | citizen_attribute =>
      {| dgraphType := lit "_Citizen_Attribute_Category_";
         nameIdPrefix := lit "cattr";
         nameField := lit "citizen_attribute_category" |}
  | value =>
      {| dgraphType := lit "_Metric_";
         nameIdPrefix := lit "metric";
         nameField := lit "metric" |}
  | official_role =>
      {| dgraphType := lit "_Indian_Government_Official_Role_";
         nameIdPrefix := lit "role";
         nameField := lit "indian_government_official_role" |}
  | region =>
      {| dgraphType := lit "_Indian_State_Union_Territory_";
         nameIdPrefix := lit "region";
         nameField := lit "indian_state_union_territory" |}
  | delivery_node =>
      {| dgraphType := lit "_Indian_Union_Government_Service_Delivery_Node_";
         nameIdPrefix := lit "dnode";
         nameField := lit "indian_union_government_service_delivery_node" |}
  | document =>
      {| dgraphType := lit "_Source_";
         nameIdPrefix := lit "doc";
         nameField := lit "map_data_source_name" |}
  | domain_issue =>
      {| dgraphType := lit "_Domain_Issue_";
         nameIdPrefix := lit "issue";
         nameField := lit "domain_issue" |}
  end.

Record GeneratedMutation := {
  description : jsstring;
  mutation : jsstring;
  variables : option (list (jsstring * jsstring))
}.

Record Summary := {
  totalNameNodes : nat;
  totalEntityNodes : nat;
  totalRelationships : nat;
  categoryCounts : OMap.t nat
}.

Record MutationBatch := {
  documentId : jsstring;
  documentPath : jsstring;
  nameNodes : list GeneratedMutation;
  entityNodes : list GeneratedMutation;
  relationships : list GeneratedMutation;
  summary : Summary
}.

(** ** The generator ([generate-mutations.ts]) *)

Definition bs : jsstring := [92%N].

(** The lines of a template literal, joined by line feeds. *)
Fixpoint lines (l : list jsstring) : jsstring :=
  match l with
  | [] => []
  | [x] => x
  | x :: r => x ++ nl ++ lines r
  end.

Definition escapeGraphQL (s : jsstring) : jsstring :=
  replaceClass (N.eqb 9) (bs ++ lit "t")
    (replaceClass (N.eqb 13) (bs ++ lit "r")
      (replaceClass (N.eqb 10) (bs ++ lit "n")
        (replaceClass (N.eqb 34) (bs ++ dq)
          (replaceClass (N.eqb 92) (bs ++ bs) s)))).

(** The clock: [now k] is what the k-th evaluation of
    [new Date().toISOString()] of a call returns. *)
Definition Clock := nat -> jsstring.

Section Generator.

Variable nonAsciiLower : CaseTable.

Definition generateNameId (entity : AnnotationEntity) : jsstring :=
  let mapping := CATEGORY_TYPE_MAP (category entity) in
  let normalized :=
    replaceClass (fun c => negb (isIdChar c)) []
      (replaceRuns isWhiteSpace (lit "_")
        (trim (toLowerCase nonAsciiLower (text entity)))) in
  nameIdPrefix mapping ++ lit "::" ++ normalized.

Definition uniqueNames (entities : list AnnotationEntity)
  : OMap.t AnnotationEntity :=
  fold_left
    (fun m entity =>
       let key := trim (text entity) in
       if OMap.has key m then m else OMap.set key entity m)
    entities (OMap.empty AnnotationEntity).

Definition nameMutation (entity : AnnotationEntity) : GeneratedMutation :=
  {| description := lit "_Name_ node for " ++ dq ++ text entity ++ dq;
     mutation := lines [
       lit "mutation {";
       lit "  add_Name_(input: [{";
       lit "    name: " ++ dq ++ escapeGraphQL (trim (text entity)) ++ dq;
       lit "  }], upsert: true) {";
       lit "    _Name_ {";
       lit "      name";
       lit "    }";
       lit "  }";
       lit "}" ];
     variables := None |}.

Definition generateNameMutations (entities : list AnnotationEntity)
  : list GeneratedMutation :=
  map nameMutation (OMap.values (uniqueNames entities)).

(** The callback of [entities.map] in [generateEntityMutations]; [now] is
    the reading of the clock it takes. *)
Definition entityMutation (now : jsstring) (entity : AnnotationEntity)
  : GeneratedMutation :=
  let mapping := CATEGORY_TYPE_MAP (category entity) in
  let nameId := generateNameId entity in
  let dgType := dgraphType mapping in
  match category entity with
  | value =>
      {| description :=
           lit "_Data_Value_ for " ++ dq ++ text entity ++ dq
             ++ lit " [" ++ categoryName (category entity) ++ lit "]";
         mutation := lines [
           lit "mutation {";
           lit "  add_Data_Value_(input: [{";
           lit "    categorical_value: " ++ dq
             ++ escapeGraphQL (trim (text entity)) ++ dq;
           lit "  }]) {";
           lit "    _Data_Value_ {";
           lit "      categorical_value";
           lit "    }";
           lit "  }";
           lit "}" ];
         variables := None |}
  | benefit =>
      {| description :=
           dgType ++ lit " for " ++ dq ++ text entity ++ dq
             ++ lit " [" ++ categoryName (category entity) ++ lit "]";
         mutation := lines [
           lit "mutation {";
           lit "  add" ++ dgType ++ lit "(input: [{";
           lit "    names: [{ name: " ++ dq
             ++ escapeGraphQL (trim (text entity)) ++ dq ++ lit " }]";
           lit "    node_created_on: " ++ dq ++ now ++ dq;
           lit "  }]) {";
           lit "    " ++ dgType ++ lit " {";
           lit "      id";
           lit "    }";
           lit "  }";
           lit "}" ];
         variables := None |}
  | document =>
      {| description :=
           dgType ++ lit " for " ++ dq ++ text entity ++ dq
             ++ lit " [" ++ categoryName (category entity) ++ lit "]";
         mutation := lines [
           lit "mutation {";
           lit "  add" ++ dgType ++ lit "(input: [{";
           lit "    name_id: " ++ dq ++ escapeGraphQL nameId ++ dq;
           lit "    names: [{ name: " ++ dq
             ++ escapeGraphQL (trim (text entity)) ++ dq ++ lit " }]";
           lit "  }], upsert: true) {";
           lit "    " ++ dgType ++ lit " {";
           lit "      name_id";
           lit "    }";
           lit "  }";
           lit "}" ];
         variables := None |}
  | _ =>
      {| description :=
           dgType ++ lit " for " ++ dq ++ text entity ++ dq
             ++ lit " [" ++ categoryName (category entity) ++ lit "]";
         mutation := lines [
           lit "mutation {";
           lit "  add" ++ dgType ++ lit "(input: [{";
           lit "    name_id: " ++ dq ++ escapeGraphQL nameId ++ dq;
           lit "    names: [{ name: " ++ dq
             ++ escapeGraphQL (trim (text entity)) ++ dq ++ lit " }]";
           lit "    node_created_on: " ++ dq ++ now ++ dq;
           lit "  }], upsert: true) {";
           lit "    " ++ dgType ++ lit " {";
           lit "      name_id";
           lit "    }";
           lit "  }";
           lit "}" ];
         variables := None |}
  end.

(** [entities.map] calls its callback on the elements in index order, so
    the k-th element takes the k-th reading of the clock. *)
Fixpoint generateEntityMutationsFrom (now : Clock) (k : nat)
  (entities : list AnnotationEntity) : list GeneratedMutation :=
  match entities with
  | [] => []
  | entity :: rest =>
      entityMutation (now k) entity
        :: generateEntityMutationsFrom now (S k) rest
  end.

Definition generateEntityMutations (now : Clock)
  (entities : list AnnotationEntity) : list GeneratedMutation :=
  generateEntityMutationsFrom now 0 entities.

(** [x || 0] on a count that may be [undefined]. *)
Definition orZero (x : option nat) : nat :=
  match x with
  | Some n => n
  | None => 0
  end.

Definition countCategories (entities : list AnnotationEntity) : OMap.t nat :=
  fold_left
    (fun counts e =>
       let key := categoryName (category e) in
       OMap.set key (orZero (OMap.get key counts) + 1) counts)
    entities (OMap.empty nat).

Definition generateMutationBatch (now : Clock) (annotation : AnnotationDocument)
  : MutationBatch :=
  let nameNodes := generateNameMutations (entities annotation) in
  let entityNodes := generateEntityMutations now (entities annotation) in
  let categoryCounts := countCategories (entities annotation) in
  {| documentId := doc_id (document_ annotation);
     documentPath := path (document_ annotation);
     nameNodes := nameNodes;
     entityNodes := entityNodes;
     relationships := [];
     summary :=
       {| totalNameNodes := length nameNodes;
          totalEntityNodes := length entityNodes;
          totalRelationships := 0;
          categoryCounts := categoryCounts |} |}.

End Generator.

(** ** The command-line tools ([load.ts], [index.ts])

    The tools read their arguments, a file and, for the loader, the answers
    of the endpoint; they write to the console, send requests and end the
    process with an exit code.  The console, the calls of [fetch] and the
    requests sent are threaded as a [World]; what the host provides (the file system, the JSON
    functions, the case table and the clock) is a [Host]; the endpoint is a
    [Transport]. *)

(** A number in a template literal. *)
Definition showNat (n : nat) : jsstring :=
  lit (NilEmpty.string_of_uint (Nat.to_uint n)).

(** A value that may be [undefined] in a template literal. *)
Definition interpolate (x : option jsstring) : jsstring :=
  match x with
  | Some s => s
  | None => lit "undefined"
  end.

(** [String.prototype.split] with a separator of one code unit: the pieces
    between the occurrences of the separator. *)
Fixpoint split (sep : N) (s : jsstring) : list jsstring :=
  match s with
  | [] => [[]]
  | c :: t =>
      if N.eqb c sep then [] :: split sep t
      else
        match split sep t with
        | piece :: pieces => (c :: piece) :: pieces
        | [] => [[c]]
        end
  end.

Inductive Stream := stdout | stderr.

(** A request of [fetch]; the method is POST and the content type JSON. *)
Record Request := {
  url : jsstring;
  body : jsstring
}.

(** [calls] holds the requests [fetch] was called with, [sent] those of
    them that went out. *)
Record World := {
  console : list (Stream * jsstring);
  calls : list Request;
  sent : list Request
}.

Record Run := {
  exitCode : nat;
  final : World
}.

Definition initial : World := {| console := []; calls := []; sent := [] |}.

(** [console.log] and [console.error]. *)
Definition log (s : jsstring) (w : World) : World :=
  {| console := console w ++ [(stdout, s)]; calls := calls w;
     sent := sent w |}.

Definition logError (s : jsstring) (w : World) : World :=
  {| console := console w ++ [(stderr, s)]; calls := calls w;
     sent := sent w |}.

(** What the try block of [executeMutation] ends with: an error raised by
    [fetch] before it sends the request (a URL that cannot be parsed, no
    connection); an error raised after the request went out, by [fetch], by
    reading the answer as JSON or by reading its fields; or the [data] and
    [errors] fields of the answer. *)
Inductive FetchOutcome (J : Type) :=
| NotSent (message : jsstring)
| Threw (message : jsstring)
| Answered (data : option J) (errors : option (list J)).

Arguments NotSent {J} message.
Arguments Threw {J} message.
Arguments Answered {J} data errors.

(** Whether the request of the call went out. *)
Definition wentOut {J : Type} (o : FetchOutcome J) : bool :=
  match o with
  | NotSent _ => false
  | _ => true
  end.

Record ExecResult (J : Type) := {
  success : bool;
  result_data : option J;
  result_errors : option (list J)
}.

Arguments success {J} e.
Arguments result_data {J} e.
Arguments result_errors {J} e.

Record Host := {
  Json : Type;
  (** [JSON.stringify] of an array of answers *)
  stringifyErrors : list Json -> jsstring;
  (** [JSON.stringify] of the object with the one field [query] *)
  stringifyQuery : jsstring -> jsstring;
  (** the object with the one field [message] *)
  messageObject : jsstring -> Json;
  (** [path.resolve] *)
  resolve : jsstring -> jsstring;
  (** [readFile] as UTF-8: the content, or the message of the error *)
  readFile : jsstring -> jsstring + jsstring;
  (** [JSON.parse] of a text taken as an annotation document: the document,
      or the message of the error *)
  parseAnnotation : jsstring -> AnnotationDocument + jsstring;
  caseTable : CaseTable;
  clock : Clock
}.

(** The outcome of a call of [fetch] with a request, given how many calls
    were made before. *)
Definition Transport (h : Host) := nat -> Request -> FetchOutcome (Json h).

Definition DEFAULT_ENDPOINT : jsstring := lit "http://localhost:8080/graphql".

Section Tools.

Variable h : Host.

Definition executeMutation (transport : Transport h)
  (endpoint : option jsstring) (m : GeneratedMutation) (w : World)
  : ExecResult (Json h) * World :=
  let request :=
    {| url := interpolate endpoint;
       body := stringifyQuery h (mutation m) |} in
  let outcome := transport (length (calls w)) request in
  let w' :=
    {| console := console w;
       calls := calls w ++ [request];
       sent := sent w ++ (if wentOut outcome then [request] else []) |} in
  match outcome with
  | Answered data errors =>
      match errors with
      | Some (e :: es) =>
          ({| success := false; result_data := None;
              result_errors := Some (e :: es) |}, w')
      | _ =>
          ({| success := true; result_data := data;
              result_errors := None |}, w')
      end
  | Threw message | NotSent message =>
      ({| success := false; result_data := None;
          result_errors := Some [messageObject h message] |}, w')
  end.

(** The loop of a phase of the loader: one call of [executeMutation] for
    every mutation, in order, with the counters of successes and
    failures. *)
Fixpoint executeAll (transport : Transport h) (endpoint : option jsstring)
  (ms : list GeneratedMutation) (succeeded failed : nat) (w : World)
  : nat * nat * World :=
  match ms with
  | [] => (succeeded, failed, w)
  | m :: rest =>
      let (result, w1) := executeMutation transport endpoint m w in
      if success result then
        executeAll transport endpoint rest (S succeeded) failed
          (log (lit "  OK: " ++ description m) w1)
      else
        executeAll transport endpoint rest succeeded (S failed)
          (logError
             (lit "    "
                ++ match result_errors result with
                   | Some errors => stringifyErrors h errors
                   | None => lit "undefined"
                   end)
             (logError (lit "  FAIL: " ++ description m) w1))
  end.

(** The handler of [main().catch]. *)
Definition failWith (message : jsstring) (w : World) : Run :=
  {| exitCode := 1; final := logError (lit "Error: " ++ message) w |}.

Definition endpointOf (args : list jsstring) : option jsstring :=
  match find (isPrefixOf (lit "--endpoint=")) args with
  | Some endpointArg =>
      match endpointArg with
      | [] => Some DEFAULT_ENDPOINT
      | _ :: _ => nth_error (split 61 endpointArg) 1
      end
  | None => Some DEFAULT_ENDPOINT
  end.

Definition filePathOf (args : list jsstring) : option jsstring :=
  find (fun a => negb (isPrefixOf (lit "--") a)) args.

(** [main] of [load.ts]. *)
Definition loadMain (transport : Transport h) (args : list jsstring) : Run :=
  let endpoint := endpointOf args in
  match filePathOf args with
  | Some (c :: p) =>
      let filePath := c :: p in
      let absPath := resolve h filePath in
      let w :=
        log (lit "Dgraph endpoint: " ++ interpolate endpoint ++ nl)
          (log (lit "Reading: " ++ absPath) initial) in
      match readFile h absPath with
      | inr message => failWith message w
      | inl raw =>
          match parseAnnotation h raw with
          | inr message => failWith message w
          | inl annotation =>
              let batch :=
                generateMutationBatch (caseTable h) (clock h) annotation in
              let w :=
                log (lit "Relationships to create: "
                       ++ showNat (length (relationships batch)) ++ nl)
                  (log (lit "Entity nodes to create: "
                          ++ showNat (length (entityNodes batch)))
                     (log (lit "_Name_ nodes to create: "
                             ++ showNat (length (nameNodes batch)))
                        (log (lit "Document: " ++ documentId batch) w))) in
              let w := log (lit "--- Phase 1: Creating _Name_ nodes ---") w in
              let '(nameSuccess, nameFail, w) :=
                executeAll transport endpoint (nameNodes batch) 0 0 w in
              let w :=
                log (lit "  Summary: " ++ showNat nameSuccess
                       ++ lit " created, " ++ showNat nameFail
                       ++ lit " failed" ++ nl) w in
              let w := log (lit "--- Phase 2: Creating entity nodes ---") w in
              let '(entitySuccess, entityFail, w) :=
                executeAll transport endpoint (entityNodes batch) 0 0 w in
              let w :=
                log (lit "  Summary: " ++ showNat entitySuccess
                       ++ lit " created, " ++ showNat entityFail
                       ++ lit " failed" ++ nl) w in
              let w :=
                if Nat.ltb 0 (length (relationships batch)) then
                  let w :=
                    log (lit "--- Phase 3: Creating relationships ---") w in
                  let '(relSuccess, relFail, w) :=
                    executeAll transport endpoint (relationships batch)
                      0 0 w in
                  log (lit "  Summary: " ++ showNat relSuccess
                         ++ lit " created, " ++ showNat relFail
                         ++ lit " failed" ++ nl) w
                else w in
              let w :=
                log (lit "Relationships: 0/"
                       ++ showNat (length (relationships batch)))
                  (log (lit "Entity nodes: " ++ showNat entitySuccess
                          ++ lit "/" ++ showNat (length (entityNodes batch)))
                     (log (lit "_Name_ nodes: " ++ showNat nameSuccess
                             ++ lit "/" ++ showNat (length (nameNodes batch)))
                        (log (lit "=== Load Complete ===") w))) in
              if Nat.ltb 0 nameFail || Nat.ltb 0 entityFail then
                {| exitCode := 1;
                   final :=
                     log (nl ++ lit "WARNING: "
                            ++ showNat (nameFail + entityFail)
                            ++ lit " mutations failed.") w |}
              else {| exitCode := 0; final := w |}
          end
      end
  | _ =>
      {| exitCode := 1;
         final :=
           logError
             (lit "Usage: npm run load -- <path-to-annotations.json> [--endpoint=url]")
             initial |}
  end.

(** The loops of [index.ts] that print the mutations and the counts. *)
Fixpoint printMutations (ms : list GeneratedMutation) (w : World) : World :=
  match ms with
  | [] => w
  | m :: rest =>
      printMutations rest
        (log [] (log (mutation m) (log (lit "# " ++ description m) w)))
  end.

Fixpoint printCounts (counts : list (jsstring * nat)) (w : World) : World :=
  match counts with
  | [] => w
  | (cat, count) :: rest =>
      printCounts rest
        (log (lit "  " ++ cat ++ lit ": " ++ showNat count) w)
  end.

(** [main] of [index.ts]. *)
Definition previewMain (args : list jsstring) : Run :=
  match filePathOf args with
  | Some (c :: p) =>
      let filePath := c :: p in
      let absPath := resolve h filePath in
      let w := log (lit "Reading: " ++ absPath ++ nl) initial in
      match readFile h absPath with
      | inr message => failWith message w
      | inl raw =>
          match parseAnnotation h raw with
          | inr message => failWith message w
          | inl annotation =>
              let w :=
                log []
                  (log (lit "Relationships: "
                          ++ showNat
                               match relationships_ annotation with
                               | Some rels => length rels
                               | None => 0
                               end)
                     (log (lit "Entities: "
                             ++ showNat (length (entities annotation)))
                        (log (lit "Path: " ++ path (document_ annotation))
                           (log (lit "Document: "
                                   ++ doc_id (document_ annotation)
                                   ++ lit " ("
                                   ++ subject (document_ annotation)
                                   ++ lit ")") w)))) in
              let batch :=
                generateMutationBatch (caseTable h) (clock h) annotation in
              let w :=
                log (lit "Category counts:")
                  (log []
                     (log (lit "Relationships:  "
                             ++ showNat (totalRelationships (summary batch)))
                        (log (lit "Entity nodes:   "
                                ++ showNat (totalEntityNodes (summary batch)))
                           (log (lit "_Name_ nodes:   "
                                   ++ showNat
                                        (totalNameNodes (summary batch)))
                              (log (lit "=== Mutation Summary ===") w))))) in
              let w := log [] (printCounts (categoryCounts (summary batch)) w) in
              let w :=
                printMutations (nameNodes batch)
                  (log (lit "=== _Name_ Mutations ===" ++ nl) w) in
              let w :=
                printMutations (entityNodes batch)
                  (log (lit "=== Entity Mutations ===" ++ nl) w) in
              let w :=
                if Nat.ltb 0 (length (relationships batch)) then
                  printMutations (relationships batch)
                    (log (lit "=== Relationship Mutations ===" ++ nl) w)
                else w in
              {| exitCode := 0; final := w |}
          end
      end
  | _ =>
      {| exitCode := 1;
         final :=
           logError
             (lit "Generates Dgraph GraphQL mutations from an annotation JSON file.")
             (logError []
                (logError
                   (lit "Usage: npm run dev -- <path-to-annotations.json> [--dry]")
                   initial)) |}
  end.

End Tools.

(** ** Definitions the statements are written with *)

(** *** String literals of the wire format *)

Section WireFormat.
Open Scope N_scope.

Definition hexDigit (c : N) : option N :=
  if (48 <=? c) && (c <=? 57) then Some (c - 48)
  else if (65 <=? c) && (c <=? 70) then Some (c - 55)
  else if (97 <=? c) && (c <=? 102) then Some (c - 87)
  else None.

Definition escapedCharacter (c : N) : option N :=
  if c =? 34 then Some 34
  else if c =? 92 then Some 92
  else if c =? 47 then Some 47
  else if c =? 98 then Some 8
  else if c =? 102 then Some 12
  else if c =? 110 then Some 10
  else if c =? 114 then Some 13
  else if c =? 116 then Some 9
  else None.

(** The source characters of a GraphQL document (October 2021 edition): the
    tab, the line feed, the carriage return and the code units from U+0020
    to U+FFFF.  The other control characters are no source characters. *)
Definition isSourceCharacter (c : N) : bool :=
  (c =? 9) || (c =? 10) || (c =? 13) || ((32 <=? c) && (c <=? 65535)).

(** Modelled from the spec: the parser of the wire format, which is not part
    of the repository.  [parseStringCharacters] reads the characters between
    the quotes of a GraphQL string literal (the StringCharacter production
    of the October 2021 edition of the GraphQL specification): a backslash
    introduces one of the escapes for a double quote, a backslash, a slash,
    b, f, n, r, t or a four-digit unicode escape; an unescaped double quote
    or line terminator is refused; any other source character stands for
    itself; a code unit that is no source character is refused. *)
Fixpoint parseStringCharacters (s : jsstring) : option jsstring :=
  match s with
  | [] => Some []
  | c :: t =>
      if c =? 92 then
        match t with
        | [] => None
        | d :: t' =>
            if d =? 117 then
              match t' with
              | h1 :: h2 :: h3 :: h4 :: t'' =>
                  match hexDigit h1, hexDigit h2, hexDigit h3, hexDigit h4 with
                  | Some a, Some b, Some e, Some f =>
                      option_map (cons (((a * 16 + b) * 16 + e) * 16 + f))
                        (parseStringCharacters t'')
                  | _, _, _, _ => None
                  end
              | _ => None
              end
            else
              match escapedCharacter d with
              | Some x => option_map (cons x) (parseStringCharacters t')
              | None => None
              end
        end
      else if (c =? 34) || (c =? 10) || (c =? 13) then None
      else if isSourceCharacter c then
        option_map (cons c) (parseStringCharacters t)
      else None
  end.

(** What escaping does to one code unit, in the words of the specification:
    the five special characters get a backslash escape, every other code
    unit is kept. *)
Definition escapeChar (c : N) : jsstring :=
  if c =? 92 then [92; 92]
  else if c =? 34 then [92; 34]
  else if c =? 10 then [92; 110]
  else if c =? 13 then [92; 114]
  else if c =? 9 then [92; 116]
  else [c].

End WireFormat.

(** *** Identifier normalisation, in the words of the specification *)

(** The maximal runs of code units that are not white space. *)
Fixpoint words (s : jsstring) : list jsstring :=
  match s with
  | [] => []
  | c :: t =>
      if isWhiteSpace c then words t
      else
        match t with
        | [] => [[c]]
        | d :: _ =>
            if isWhiteSpace d then [c] :: words t
            else
              match words t with
              | w :: ws => (c :: w) :: ws
              | [] => [[c]]
              end
        end
  end.

Fixpoint joinWith (sep : jsstring) (l : list jsstring) : jsstring :=
  match l with
  | [] => []
  | [x] => x
  | x :: r => x ++ sep ++ joinWith sep r
  end.

(** Lower-cased, trimmed, white-space runs collapsed to one underscore,
    everything outside [a-z0-9_-] removed. *)
Definition normalizedText (tbl : CaseTable) (t : jsstring) : jsstring :=
  filter isIdChar (joinWith (lit "_") (words (toLowerCase tbl t))).

(** *** Entry-node deduplication, in the words of the specification *)

Definition trimmedText (e : AnnotationEntity) : jsstring := trim (text e).

(** The first entity of every distinct trimmed text, in first-seen order. *)
Fixpoint firstOccurrences (es : list AnnotationEntity)
  : list AnnotationEntity :=
  match es with
  | [] => []
  | e :: r =>
      e :: filter (fun e' => negb (JS.eqb (trimmedText e') (trimmedText e)))
             (firstOccurrences r)
  end.

(** [Subsequence l l']: [l] is [l'] with some elements left out, the others
    in their order. *)
Inductive Subsequence {A : Type} : list A -> list A -> Prop :=
| sub_nil : Subsequence [] []
| sub_skip x l l' : Subsequence l l' -> Subsequence l (x :: l')
| sub_keep x l l' : Subsequence l l' -> Subsequence (x :: l) (x :: l').

(** *** Counting *)

Definition EntityCategory_eq_dec (a b : EntityCategory) : {a = b} + {a <> b}.
Proof. decide equality. Defined.

Definition countCategory (c : EntityCategory) (es : list AnnotationEntity)
  : nat :=
  count_occ EntityCategory_eq_dec (map category es) c.

Definition relationshipCount (doc : AnnotationDocument) : nat :=
  match relationships_ doc with
  | Some rels => length rels
  | None => 0
  end.

(** *** The shape of a typed-node mutation

    A mutation of the wire format adds one object of a type; the object
    literal lists fields, the call may carry the upsert flag, and one field
    is selected from the result. *)

Inductive InputField :=
| ScalarField (name literal : jsstring)
| NestedCreate (name inner literal : jsstring).

Definition fieldName (f : InputField) : jsstring :=
  match f with
  | ScalarField n _ => n
  | NestedCreate n _ _ => n
  end.

Record MutationShape := {
  typeName : jsstring;
  inputFields : list InputField;
  upsertFlag : bool;
  selected : jsstring
}.

Definition renderField (f : InputField) : jsstring :=
  match f with
  | ScalarField n v => lit "    " ++ n ++ lit ": " ++ dq ++ v ++ dq
  | NestedCreate n i v =>
      lit "    " ++ n ++ lit ": [{ " ++ i ++ lit ": " ++ dq ++ v ++ dq
        ++ lit " }]"
  end.

Definition render (sh : MutationShape) : jsstring :=
  lines
    ([lit "mutation {";
      lit "  add" ++ typeName sh ++ lit "(input: [{"]
     ++ map renderField (inputFields sh)
     ++ [lit "  }]" ++ (if upsertFlag sh then lit ", upsert: true" else [])
           ++ lit ") {";
         lit "    " ++ typeName sh ++ lit " {";
         lit "      " ++ selected sh;
         lit "    }";
         lit "  }";
         lit "}"]).

(** The text of a benefit mutation around the two values it embeds. *)
Definition benefitHead : jsstring :=
  lit "mutation {" ++ nl
    ++ lit "  add_Indian_Union_Government_Service_Benefit_(input: [{" ++ nl
    ++ lit "    names: [{ name: ".

Definition benefitMiddle : jsstring :=
  lit " }]" ++ nl ++ lit "    node_created_on: ".

Definition benefitTail : jsstring :=
  nl ++ lit "  }]) {" ++ nl
    ++ lit "    _Indian_Union_Government_Service_Benefit_ {" ++ nl
    ++ lit "      id" ++ nl
    ++ lit "    }" ++ nl
    ++ lit "  }" ++ nl
    ++ lit "}".

Definition benefitShape (name now : jsstring) : MutationShape :=
  {| typeName := lit "_Indian_Union_Government_Service_Benefit_";
     inputFields :=
       [NestedCreate (lit "names") (lit "name") name;
        ScalarField (lit "node_created_on") now];
     upsertFlag := false;
     selected := lit "id" |}.

(** The typed-node mutations, entity by entity with its reading. *)
Definition indexed {A : Type} (k : nat) (l : list A) : list (nat * A) :=
  combine (seq k (length l)) l.

(** *** More definitions for the statements *)

(** The five code units that escaping rewrites. *)
Definition isSpecial (c : N) : bool :=
  N.eqb c 92 || N.eqb c 34 || N.eqb c 10 || N.eqb c 13 || N.eqb c 9.

(** The shape of the entry-node mutation of a text. *)
Definition nameShape (name : jsstring) : MutationShape :=
  {| typeName := lit "_Name_";
     inputFields := [ScalarField (lit "name") name];
     upsertFlag := true;
     selected := lit "name" |}.

Definition isValue (c : EntityCategory) : bool :=
  match c with value => true | _ => false end.

Definition isBenefit (c : EntityCategory) : bool :=
  match c with benefit => true | _ => false end.

Definition isDocument (c : EntityCategory) : bool :=
  match c with document => true | _ => false end.

(** The shape of the typed-node mutation of an entity, by the family of its
    category: a scalar value, a nested entry, an identified node without or
    with the time of creation. *)
Definition typedShape (tbl : CaseTable) (now : jsstring) (e : AnnotationEntity)
  : MutationShape :=
  let name := escapeGraphQL (trim (text e)) in
  let nameId := escapeGraphQL (generateNameId tbl e) in
  let dgType := dgraphType (CATEGORY_TYPE_MAP (category e)) in
  if isValue (category e) then
    {| typeName := lit "_Data_Value_";
       inputFields := [ScalarField (lit "categorical_value") name];
       upsertFlag := false;
       selected := lit "categorical_value" |}
  else if isBenefit (category e) then
    {| typeName := dgType;
       inputFields :=
         [NestedCreate (lit "names") (lit "name") name;
          ScalarField (lit "node_created_on") now];
       upsertFlag := false;
       selected := lit "id" |}
  else
    {| typeName := dgType;
       inputFields :=
         [ScalarField (lit "name_id") nameId;
          NestedCreate (lit "names") (lit "name") name]
         ++ (if isDocument (category e) then []
             else [ScalarField (lit "node_created_on") now]);
       upsertFlag := true;
       selected := lit "name_id" |}.

(** The first occurrence of every string of a list, in order. *)
Fixpoint firstSeen (l : list jsstring) : list jsstring :=
  match l with
  | [] => []
  | k :: r => k :: filter (fun k' => negb (JS.eqb k' k)) (firstSeen r)
  end.

(** The code units of a string before the first occurrence of [sep]. *)
Fixpoint upTo (sep : N) (s : jsstring) : jsstring :=
  match s with
  | [] => []
  | c :: t => if N.eqb c sep then [] else c :: upTo sep t
  end.

(** An outcome that [executeMutation] reports as a success: an answer
    without errors, or with an empty array of errors. *)
Definition accepted {J : Type} (o : FetchOutcome J) : bool :=
  match o with
  | Answered _ (Some (_ :: _)) => false
  | Answered _ _ => true
  | Threw _ => false
  | NotSent _ => false
  end.

(** The request [executeMutation] sends for a mutation. *)
Definition requestOf (h : Host) (endpoint : option jsstring)
  (m : GeneratedMutation) : Request :=
  {| url := interpolate endpoint; body := stringifyQuery h (mutation m) |}.

(** The outcomes of the calls of [fetch] for [ms] when [base] calls were
    made before. *)
Fixpoint outcomesFrom (h : Host) (transport : Transport h)
  (endpoint : option jsstring) (base : nat) (ms : list GeneratedMutation)
  : list (FetchOutcome (Json h)) :=
  match ms with
  | [] => []
  | m :: rest =>
      transport base (requestOf h endpoint m)
        :: outcomesFrom h transport endpoint (S base) rest
  end.

(** The document a tool gets to work on: there is a file path among the
    arguments, the file can be read and its content is a document. *)
Definition inputOf (h : Host) (args : list jsstring)
  : option AnnotationDocument :=
  match filePathOf args with
  | Some (c :: p) =>
      match readFile h (resolve h (c :: p)) with
      | inl raw =>
          match parseAnnotation h raw with
          | inl annotation => Some annotation
          | inr _ => None
          end
      | inr _ => None
      end
  | _ => None
  end.

(** *** Sample inputs *)

Definition entityOf (i t : string) (c : EntityCategory) : AnnotationEntity :=
  {| id := lit i; text := lit t; start := 0; end_ := 0; category := c |}.

Definition sampleDescriptor : DocumentDescriptor :=
  {| doc_id := lit "doc-1"; path := lit "qa/doc-1.txt";
     subject := lit "health" |}.

Definition nhaEntities : list AnnotationEntity :=
  [entityOf "e1" "National Health Authority (NHA)" organization;
   entityOf "e2" "National Health Authority (NHA)" organization].

Definition nhaDocument : AnnotationDocument :=
  {| document_ := sampleDescriptor;
     entities := nhaEntities;
     relationships_ :=
       Some [{| rel_id := lit "r1"; source_entity_id := lit "e1";
                target_entity_id := lit "e2"; type := lit "same_as";
                label := lit "e1 is e2" |}];
     saved_at := None |}.

Definition caseVariants : list AnnotationEntity :=
  [entityOf "e1" "NHA" organization;
   entityOf "e2" "nha" organization;
   entityOf "e3" " NHA " organization;
   entityOf "e4" "Ayushman Bharat" program;
   entityOf "e5" "Ayushman  Bharat" program].

Definition sampleBenefit : AnnotationEntity :=
  entityOf "e7" " Free treatment up to upsert: true " benefit.

Definition punctuationOnly : AnnotationEntity :=
  entityOf "e9" "  (!?) " benefit.

(** The text of the round-trip example: a, double quote, backslash, b. *)
Definition quoteBackslash : jsstring := lit "a" ++ dq ++ bs ++ lit "b".

(** The five special characters, adjacent and repeated. *)
Definition specialsInARow : jsstring :=
  lit "a" ++ dq ++ dq ++ bs ++ bs ++ nl ++ [13%N; 9%N; 9%N] ++ bs ++ dq
    ++ nl ++ lit "b".

(** A text with a form feed (U+000C). *)
Definition formFeedText : jsstring := lit "a" ++ [12%N] ++ lit "b".

Definition morning : Clock := fun _ => lit "2026-01-01T09:00:00.000Z".
Definition evening : Clock := fun _ => lit "2026-01-01T21:00:00.000Z".

(** Reads like [morning] for the first two readings. *)
Definition morningThenEvening : Clock :=
  fun k => if Nat.ltb k 2 then morning k else evening k.

(** A host with one file, which holds the sample document. *)
Definition sampleHost : Host :=
  {| Json := jsstring;
     stringifyErrors :=
       fun errors => lit "[" ++ joinWith (lit ",") errors ++ lit "]";
     stringifyQuery := fun q => lit "{query:" ++ q ++ lit "}";
     messageObject := fun message => lit "{message:" ++ message ++ lit "}";
     resolve := fun p => lit "/work/" ++ p;
     readFile :=
       fun p =>
         if JS.eqb p (lit "/work/nha.json") then inl (lit "<nha>")
         else inr (lit "ENOENT: no such file or directory");
     parseAnnotation :=
       fun raw =>
         if JS.eqb raw (lit "<nha>") then inl nhaDocument
         else inr (lit "Unexpected end of JSON input");
     caseTable := caselessTable;
     clock := morning |}.

(** The requests for [ms] that go out when [base] calls were made
    before. *)
Fixpoint sentFrom (h : Host) (transport : Transport h)
  (endpoint : option jsstring) (base : nat) (ms : list GeneratedMutation)
  : list Request :=
  match ms with
  | [] => []
  | m :: rest =>
      (if wentOut (transport base (requestOf h endpoint m))
       then [requestOf h endpoint m] else [])
        ++ sentFrom h transport endpoint (S base) rest
  end.

(** An endpoint that accepts every request, one that refuses the second
    request only, and a [fetch] that cannot parse an empty URL. *)
Definition acceptAll : Transport sampleHost :=
  fun _ _ => Answered (Some (lit "{}")) None.

Definition refuseSecond : Transport sampleHost :=
  fun k _ =>
    if Nat.eqb k 1 then Answered None (Some [lit "{message:conflict}"])
    else Answered (Some (lit "{}")) None.

Definition noEmptyUrl : Transport sampleHost :=
  fun _ request =>
    match url request with
    | [] => NotSent (lit "Failed to parse URL")
    | _ :: _ => Answered (Some (lit "{}")) None
    end.

(** ** Facts about the string model *)

Lemma eqb_refl (a : jsstring) : JS.eqb a a = true.
Proof.
  induction a as [|x a IH]; simpl; [reflexivity|].
  now rewrite N.eqb_refl, IH.
Qed.

Lemma eqb_eq (a b : jsstring) : JS.eqb a b = true <-> a = b.
Proof.
  split.
  - revert b; induction a as [|x a IH]; intros [|y b] H; simpl in H;
      try discriminate; [reflexivity|].
    apply andb_true_iff in H as [Hx Hr].
    apply N.eqb_eq in Hx. apply IH in Hr. now subst.
  - intros ->. apply eqb_refl.
Qed.

Lemma eqb_neq (a b : jsstring) : JS.eqb a b = false <-> a <> b.
Proof.
  rewrite <- eqb_eq. destruct (JS.eqb a b); split; congruence.
Qed.

Lemma eqb_sym (a b : jsstring) : JS.eqb a b = JS.eqb b a.
Proof.
  destruct (JS.eqb a b) eqn:E.
  - apply eqb_eq in E. subst. symmetry. apply eqb_refl.
  - symmetry. apply eqb_neq. apply eqb_neq in E. congruence.
Qed.

Lemma isPrefixOf_spec (p s : jsstring) :
  isPrefixOf p s = true <-> exists post, s = p ++ post.
Proof.
  revert s; induction p as [|x p IH]; intros s; simpl.
  - split; [intros _; now exists s | reflexivity].
  - destruct s as [|y s].
    + split; [discriminate | intros [post H]; discriminate].
    + rewrite andb_true_iff, N.eqb_eq, IH. split.
      * intros [-> [post ->]]. now exists post.
      * intros [post H]. injection H as -> ->. split; [reflexivity|].
        now exists post.
Qed.

(** [includes] decides the occurrence of a substring. *)
Lemma includes_spec (needle hay : jsstring) :
  includes needle hay = true <-> exists pre post, hay = pre ++ needle ++ post.
Proof.
  induction hay as [|y hay IH].
  - simpl. rewrite orb_false_r, isPrefixOf_spec. split.
    + intros [post H]. now exists [], post.
    + intros [[|a pre] [post H]]; [now exists post | discriminate].
  - change (includes needle (y :: hay))
      with (isPrefixOf needle (y :: hay) || includes needle hay).
    rewrite orb_true_iff, isPrefixOf_spec, IH. split.
    + intros [[post H] | [pre [post H]]].
      * now exists [], post.
      * exists (y :: pre), post. now rewrite H.
    + intros [[|a pre] [post H]].
      * left. now exists post.
      * right. injection H as -> ->. now exists pre, post.
Qed.

Lemma isPrefixOf_before_absent (n x y : jsstring) (c : N) :
  ~ In c n -> isPrefixOf n (x ++ c :: y) = isPrefixOf n x.
Proof.
  revert x; induction n as [|h n IH]; intros x Hc; [now destruct x|].
  destruct x as [|a x]; simpl.
  - destruct (N.eqb_spec h c) as [->|_]; [|reflexivity].
    exfalso. apply Hc. now left.
  - rewrite IH; [reflexivity|]. intros Hin. apply Hc. now right.
Qed.

(** A substring that does not contain [c] lies on one side of an occurrence
    of [c]. *)
Lemma includes_split_at (n x y : jsstring) (c : N) :
  ~ In c n -> includes n (x ++ c :: y) = includes n x || includes n y.
Proof.
  intros Hc. induction x as [|a x IH].
  - change (includes n ([] ++ c :: y))
      with (isPrefixOf n ([] ++ c :: y) || includes n y).
    rewrite isPrefixOf_before_absent by assumption.
    simpl. now rewrite orb_false_r.
  - change (includes n ((a :: x) ++ c :: y))
      with (isPrefixOf n ((a :: x) ++ c :: y) || includes n (x ++ c :: y)).
    rewrite isPrefixOf_before_absent, IH by assumption.
    change (includes n (a :: x))
      with (isPrefixOf n (a :: x) || includes n x).
    now rewrite orb_assoc.
Qed.

(** *** Replacement of a character class *)

Lemma replaceClass_flat_map (p : N -> bool) (rep s : jsstring) :
  replaceClass p rep s = flat_map (fun c => if p c then rep else [c]) s.
Proof.
  induction s as [|c s IH]; simpl; [reflexivity|].
  rewrite IH. now destruct (p c).
Qed.

Lemma replaceClass_app (p : N -> bool) (rep a b : jsstring) :
  replaceClass p rep (a ++ b) = replaceClass p rep a ++ replaceClass p rep b.
Proof.
  induction a as [|c a IH]; simpl; [reflexivity|].
  rewrite IH. destruct (p c); [now rewrite app_assoc | reflexivity].
Qed.

Lemma replaceClass_over_flat_map (p : N -> bool) (rep : jsstring)
  (f : N -> jsstring) (s : jsstring) :
  replaceClass p rep (flat_map f s)
  = flat_map (fun c => replaceClass p rep (f c)) s.
Proof.
  induction s as [|c s IH]; simpl; [reflexivity|].
  now rewrite replaceClass_app, IH.
Qed.

Lemma replaceClass_delete (p : N -> bool) (s : jsstring) :
  replaceClass p [] s = filter (fun c => negb (p c)) s.
Proof.
  induction s as [|c s IH]; simpl; [reflexivity|].
  rewrite IH. now destruct (p c).
Qed.

Lemma replaceClass_unmatched (p : N -> bool) (rep : jsstring) (c : N) :
  p c = false -> replaceClass p rep [c] = [c].
Proof. intros H. simpl. now rewrite H. Qed.

(** *** Escaping, one code unit at a time *)

Lemma escapeGraphQL_chars (s : jsstring) :
  escapeGraphQL s = flat_map escapeChar s.
Proof.
  unfold escapeGraphQL.
  rewrite (replaceClass_flat_map (N.eqb 92)).
  rewrite !replaceClass_over_flat_map.
  apply flat_map_ext. intros c. unfold escapeChar.
  destruct (N.eqb_spec c 92) as [->|H92]; [reflexivity|].
  rewrite (proj2 (N.eqb_neq 92 c)) by congruence.
  destruct (N.eqb_spec c 34) as [->|H34]; [reflexivity|].
  destruct (N.eqb_spec c 10) as [->|H10]; [reflexivity|].
  destruct (N.eqb_spec c 13) as [->|H13]; [reflexivity|].
  destruct (N.eqb_spec c 9) as [->|H9]; [reflexivity|].
  now rewrite !replaceClass_unmatched by (apply N.eqb_neq; congruence).
Qed.

Lemma parse_escapeChar (c : N) (rest : jsstring) :
  isSourceCharacter c = true ->
  parseStringCharacters (escapeChar c ++ rest)
  = option_map (cons c) (parseStringCharacters rest).
Proof.
  intros Hc. unfold escapeChar.
  destruct (N.eqb_spec c 92) as [->|H92]; [reflexivity|].
  destruct (N.eqb_spec c 34) as [->|H34]; [reflexivity|].
  destruct (N.eqb_spec c 10) as [->|H10]; [reflexivity|].
  destruct (N.eqb_spec c 13) as [->|H13]; [reflexivity|].
  destruct (N.eqb_spec c 9) as [->|H9]; [reflexivity|].
  cbn [app parseStringCharacters].
  rewrite (proj2 (N.eqb_neq c 92)) by congruence.
  rewrite (proj2 (N.eqb_neq c 34)) by congruence.
  rewrite (proj2 (N.eqb_neq c 10)) by congruence.
  rewrite (proj2 (N.eqb_neq c 13)) by congruence.
  cbn [orb]. now rewrite Hc.
Qed.

Lemma parse_escapeGraphQL (s : jsstring) :
  forallb isSourceCharacter s = true ->
  parseStringCharacters (escapeGraphQL s) = Some s.
Proof.
  rewrite escapeGraphQL_chars.
  induction s as [|c s IH]; [reflexivity|].
  cbn [forallb flat_map]. intros H. apply andb_true_iff in H as [Hc Hs].
  now rewrite (parse_escapeChar c _ Hc), (IH Hs).
Qed.

(** *** Trimming and the words of a string *)

Lemma trimEnd_cons (c : N) (t : jsstring) :
  trimEnd (c :: t)
  = match trimEnd t with
    | [] => if isWhiteSpace c then [] else [c]
    | t' => c :: t'
    end.
Proof. reflexivity. Qed.

Lemma trimEnd_head (x y : jsstring) (c : N) :
  trimEnd x = c :: y -> exists t, x = c :: t.
Proof.
  destruct x as [|a x]; [discriminate|].
  rewrite trimEnd_cons. destruct (trimEnd x).
  - destruct (isWhiteSpace a); [discriminate|].
    intros H. injection H as -> _. now exists x.
  - intros H. injection H as -> _. now exists x.
Qed.

Lemma trimEnd_nil_head (c : N) (t : jsstring) :
  trimEnd (c :: t) = [] -> isWhiteSpace c = true /\ trimEnd t = [].
Proof.
  rewrite trimEnd_cons. destruct (trimEnd t); [|discriminate].
  destruct (isWhiteSpace c); [now split | discriminate].
Qed.

Lemma trimEnd_fixed_tail (c : N) (t : jsstring) :
  trimEnd (c :: t) = c :: t -> trimEnd t = t.
Proof.
  rewrite trimEnd_cons. destruct (trimEnd t) as [|d t'].
  - destruct (isWhiteSpace c); [discriminate|].
    intros H. now injection H as <-.
  - intros H. now injection H as <-.
Qed.

Lemma trimEnd_idempotent (s : jsstring) : trimEnd (trimEnd s) = trimEnd s.
Proof.
  induction s as [|c s IH]; [reflexivity|].
  rewrite trimEnd_cons. destruct (trimEnd s) as [|d t'] eqn:E.
  - destruct (isWhiteSpace c) eqn:W; [reflexivity|].
    rewrite trimEnd_cons. simpl. now rewrite W.
  - rewrite trimEnd_cons, IH. reflexivity.
Qed.

Lemma trimStart_head (s y : jsstring) (c : N) :
  trimStart s = c :: y -> isWhiteSpace c = false.
Proof.
  induction s as [|a s IH]; [discriminate|].
  simpl. destruct (isWhiteSpace a) eqn:W; [exact IH|].
  intros H. now injection H as <- _.
Qed.

(** A trimmed string neither starts nor ends with white space. *)
Lemma trim_head (s y : jsstring) (c : N) :
  trim s = c :: y -> isWhiteSpace c = false.
Proof.
  unfold trim. intros H.
  destruct (trimEnd_head _ _ _ H) as [t Ht].
  exact (trimStart_head _ _ _ Ht).
Qed.

Lemma trim_fixed_end (s : jsstring) : trimEnd (trim s) = trim s.
Proof. apply trimEnd_idempotent. Qed.

Lemma trimEnd_last (s y : jsstring) (c : N) :
  trimEnd s = y ++ [c] -> isWhiteSpace c = false.
Proof.
  revert y; induction s as [|a s IH]; intros y; [now destruct y|].
  rewrite trimEnd_cons. destruct (trimEnd s) as [|d t'].
  - destruct (isWhiteSpace a) eqn:W; [now destruct y|].
    destruct y as [|b [|b' y]]; intros H; try discriminate.
    now injection H as <-.
  - destruct y as [|b y]; intros H; [now destruct t'|].
    injection H as _ H. exact (IH y H).
Qed.

Lemma trimStart_removed (s : jsstring) :
  exists pre, s = pre ++ trimStart s
              /\ Forall (fun c => isWhiteSpace c = true) pre.
Proof.
  induction s as [|a s [pre [Hs Hpre]]]; [now exists []|].
  simpl. destruct (isWhiteSpace a) eqn:W.
  - exists (a :: pre). split; [simpl; congruence | now constructor].
  - now exists [].
Qed.

Lemma trimEnd_removed (s : jsstring) :
  exists post, s = trimEnd s ++ post
               /\ Forall (fun c => isWhiteSpace c = true) post.
Proof.
  induction s as [|a s [post [Hs Hpost]]]; [now exists []|].
  rewrite trimEnd_cons. destruct (trimEnd s) as [|d t'].
  - destruct (isWhiteSpace a) eqn:W.
    + exists (a :: post). simpl in *. split; [congruence | now constructor].
    + exists post. simpl in *. split; [congruence | assumption].
  - exists post. split; [simpl in *; congruence | assumption].
Qed.

(** [trim] removes a run of white space at either end, and what is left
    neither starts nor ends with white space. *)
Lemma trim_removed (s : jsstring) :
  exists pre post,
    s = pre ++ trim s ++ post
    /\ Forall (fun c => isWhiteSpace c = true) pre
    /\ Forall (fun c => isWhiteSpace c = true) post.
Proof.
  destruct (trimStart_removed s) as [pre [Hs Hpre]].
  destruct (trimEnd_removed (trimStart s)) as [post [Ht Hpost]].
  exists pre, post. unfold trim. now rewrite <- Ht.
Qed.

Lemma words_cons_space (c : N) (t : jsstring) :
  isWhiteSpace c = true -> words (c :: t) = words t.
Proof. intros W. simpl. now rewrite W. Qed.

Lemma words_cons_letter (c : N) (t : jsstring) :
  isWhiteSpace c = false ->
  words (c :: t)
  = match t with
    | [] => [[c]]
    | d :: _ =>
        if isWhiteSpace d then [c] :: words t
        else match words t with
             | w :: ws => (c :: w) :: ws
             | [] => [[c]]
             end
    end.
Proof. intros W. simpl. now rewrite W. Qed.

Lemma words_trimStart (s : jsstring) : words (trimStart s) = words s.
Proof.
  induction s as [|c s IH]; [reflexivity|].
  simpl trimStart. destruct (isWhiteSpace c) eqn:W; [|reflexivity].
  now rewrite words_cons_space.
Qed.

Lemma words_trimEnd (s : jsstring) : words (trimEnd s) = words s.
Proof.
  induction s as [|c s IH]; [reflexivity|].
  rewrite trimEnd_cons. destruct (trimEnd s) as [|d t'] eqn:E.
  - destruct (isWhiteSpace c) eqn:W.
    + rewrite words_cons_space by assumption. exact IH.
    + rewrite !words_cons_letter by assumption.
      destruct s as [|a s]; [reflexivity|].
      destruct (trimEnd_nil_head _ _ E) as [Wa _].
      now rewrite Wa, <- IH.
  - destruct (trimEnd_head _ _ _ E) as [t ->].
    destruct (isWhiteSpace c) eqn:W.
    + now rewrite (words_cons_space c (d :: t') W),
        (words_cons_space c (d :: t) W).
    + rewrite (words_cons_letter c (d :: t') W),
        (words_cons_letter c (d :: t) W).
      now rewrite IH.
Qed.

Lemma words_trim (s : jsstring) : words (trim s) = words s.
Proof. unfold trim. now rewrite words_trimEnd, words_trimStart. Qed.

Lemma words_nonempty (s : jsstring) :
  s <> [] -> trimEnd s = s -> words s <> [].
Proof.
  induction s as [|c s IH]; [congruence|]. intros _ H.
  pose proof (trimEnd_fixed_tail _ _ H) as Ht.
  destruct (isWhiteSpace c) eqn:W.
  - rewrite words_cons_space by assumption. apply IH; [|assumption].
    intros ->. rewrite trimEnd_cons in H. simpl in H. rewrite W in H.
    discriminate.
  - rewrite words_cons_letter by assumption.
    destruct s as [|d s]; [discriminate|].
    destruct (isWhiteSpace d); [discriminate|].
    destruct (words (d :: s)); discriminate.
Qed.

Lemma joinWith_cons_head (sep w : jsstring) (c : N) (ws : list jsstring) :
  joinWith sep ((c :: w) :: ws) = c :: joinWith sep (w :: ws).
Proof. now destruct ws. Qed.

(** Replacing the white-space runs of a string that has no trailing white
    space: the words are joined by the replacement, which also stands for a
    leading run unless the scan is inside a run already. *)
Lemma replaceRunsFrom_words (rep : jsstring) (s : jsstring) :
  trimEnd s = s ->
  forall inRun,
    replaceRunsFrom isWhiteSpace rep inRun s
    = match s with
      | [] => []
      | c :: _ =>
          (if isWhiteSpace c then (if inRun then [] else rep) else [])
            ++ joinWith rep (words s)
      end.
Proof.
  induction s as [|c s IH]; [reflexivity|]. intros H inRun.
  pose proof (trimEnd_fixed_tail _ _ H) as Ht.
  cbn [replaceRunsFrom]. destruct (isWhiteSpace c) eqn:W.
  - assert (Hs : s <> []).
    { intros ->. rewrite trimEnd_cons in H. simpl in H. rewrite W in H.
      discriminate. }
    rewrite words_cons_space by assumption.
    assert (E : replaceRunsFrom isWhiteSpace rep true s
                = joinWith rep (words s)).
    { rewrite (IH Ht true). destruct s as [|d s]; [congruence|].
      now destruct (isWhiteSpace d). }
    rewrite E. now destruct inRun.
  - rewrite words_cons_letter by assumption. rewrite (IH Ht false).
    destruct s as [|d s]; [reflexivity|].
    destruct (isWhiteSpace d) eqn:Wd.
    + pose proof (words_nonempty (d :: s) ltac:(discriminate) Ht) as Hw.
      destruct (words (d :: s)) as [|w ws]; [congruence|]. reflexivity.
    + pose proof (words_nonempty (d :: s) ltac:(discriminate) Ht) as Hw.
      destruct (words (d :: s)) as [|w ws]; [congruence|].
      simpl app. now destruct ws.
Qed.

Lemma replaceRuns_trim (rep s : jsstring) :
  replaceRuns isWhiteSpace rep (trim s) = joinWith rep (words s).
Proof.
  unfold replaceRuns.
  rewrite (replaceRunsFrom_words rep _ (trim_fixed_end s) false).
  rewrite <- (words_trim s).
  destruct (trim s) as [|c y] eqn:E; [reflexivity|].
  now rewrite (trim_head _ _ _ E).
Qed.

(** ** Facts about insertion-ordered maps *)

Module OMapFacts.

Section WithValues.
Variable V : Type.
Implicit Types (m : OMap.t V) (k : jsstring) (v : V).

Lemma get_set k k' v m :
  OMap.get k' (OMap.set k v m)
  = if JS.eqb k k' then Some v else OMap.get k' m.
Proof.
  induction m as [|[k0 v0] r IH]; simpl; [reflexivity|].
  destruct (JS.eqb k0 k) eqn:E0; simpl.
  - apply eqb_eq in E0. subst k0. now destruct (JS.eqb k k').
  - rewrite IH. destruct (JS.eqb k0 k') eqn:E1; [|reflexivity].
    destruct (JS.eqb k k') eqn:E2; [|reflexivity].
    apply eqb_eq in E1, E2. subst. now rewrite eqb_refl in E0.
Qed.

Lemma has_set k k' v m :
  OMap.has k' (OMap.set k v m) = JS.eqb k k' || OMap.has k' m.
Proof.
  unfold OMap.has. rewrite get_set. now destruct (JS.eqb k k').
Qed.

Lemma has_in_keys k m : OMap.has k m = true <-> In k (OMap.keys m).
Proof.
  unfold OMap.has. induction m as [|[k0 v0] r IH]; simpl.
  - split; [discriminate | contradiction].
  - destruct (JS.eqb k0 k) eqn:E.
    + apply eqb_eq in E. split; [now left | reflexivity].
    + rewrite IH. apply eqb_neq in E. split; [now right|].
      intros [H|H]; [contradiction | assumption].
Qed.

(** Assigning to an absent key appends the entry. *)
Lemma set_absent k v m :
  OMap.has k m = false -> OMap.set k v m = m ++ [(k, v)].
Proof.
  unfold OMap.has. induction m as [|[k0 v0] r IH]; simpl; [reflexivity|].
  destruct (JS.eqb k0 k); [discriminate|].
  intros H. now rewrite IH.
Qed.

(** Assigning to a present key keeps the keys and their order. *)
Lemma keys_set_present k v m :
  OMap.has k m = true -> OMap.keys (OMap.set k v m) = OMap.keys m.
Proof.
  unfold OMap.has. induction m as [|[k0 v0] r IH]; simpl; [discriminate|].
  destruct (JS.eqb k0 k); [reflexivity|].
  intros H. simpl. now rewrite IH.
Qed.

Lemma keys_set_NoDup k v m :
  NoDup (OMap.keys m) -> NoDup (OMap.keys (OMap.set k v m)).
Proof.
  intros H. destruct (OMap.has k m) eqn:E.
  - now rewrite keys_set_present.
  - rewrite set_absent by assumption. unfold OMap.keys.
    rewrite map_app. simpl.
    apply NoDup_app; [assumption | repeat constructor; intros [] |].
    intros x Hx [<-|[]]. apply has_in_keys in Hx. congruence.
Qed.

End WithValues.

(** Adding one to a count adds one to the sum of the counts. *)
Lemma sum_bump (k : jsstring) (m : OMap.t nat) :
  list_sum (OMap.values (OMap.set k (orZero (OMap.get k m) + 1) m))
  = list_sum (OMap.values m) + 1.
Proof.
  assert (G : forall v,
             list_sum (OMap.values (OMap.set k v m)) + orZero (OMap.get k m)
             = list_sum (OMap.values m) + v).
  { intros v. induction m as [|[k0 v0] r IH]; simpl; [lia|].
    destruct (JS.eqb k0 k); simpl; lia. }
  specialize (G (orZero (OMap.get k m) + 1)). lia.
Qed.

End OMapFacts.

(** ** Facts about the entry-node builder *)

(** Dropping entities in two passes is dropping them in one. *)
Lemma filter_twice (keep first : AnnotationEntity -> bool)
  (es : list AnnotationEntity) :
  filter keep (filter first es) = filter (fun e => first e && keep e) es.
Proof.
  induction es as [|e es IH]; cbn [filter]; [reflexivity|].
  destruct (first e); cbn [filter andb]; [|exact IH].
  destruct (keep e); now rewrite IH.
Qed.

(** The loop over the entities, started from any map: the entities it adds
    are the first occurrences whose trimmed text is not a key yet. *)
Lemma uniqueNames_loop (es : list AnnotationEntity)
  (m : OMap.t AnnotationEntity) :
  OMap.values
    (fold_left
       (fun m entity =>
          let key := trim (text entity) in
          if OMap.has key m then m else OMap.set key entity m)
       es m)
  = OMap.values m
      ++ filter (fun e => negb (OMap.has (trimmedText e) m))
           (firstOccurrences es).
Proof.
  revert m; induction es as [|e es IH]; intros m.
  - simpl. now rewrite app_nil_r.
  - cbn [fold_left firstOccurrences filter]. fold (trimmedText e).
    destruct (OMap.has (trimmedText e) m) eqn:E.
    + rewrite IH. f_equal. simpl negb. cbv iota.
      rewrite filter_twice. apply filter_ext. intros x.
      destruct (OMap.has (trimmedText x) m) eqn:Ex;
        [now rewrite andb_false_r|].
      rewrite andb_true_r.
      destruct (JS.eqb (trimmedText x) (trimmedText e)) eqn:Exe;
        [|reflexivity].
      apply eqb_eq in Exe. congruence.
    + rewrite IH. rewrite OMapFacts.set_absent by assumption.
      unfold OMap.values at 1 2. rewrite map_app. simpl map.
      rewrite <- app_assoc. f_equal. simpl negb. cbv iota. simpl app.
      f_equal. rewrite filter_twice. apply filter_ext. intros x.
      rewrite <- (OMapFacts.set_absent _ _ e _ E), OMapFacts.has_set.
      rewrite (eqb_sym (trimmedText e) (trimmedText x)).
      now rewrite negb_orb.
Qed.

Lemma uniqueNames_values (es : list AnnotationEntity) :
  OMap.values (uniqueNames es) = firstOccurrences es.
Proof.
  unfold uniqueNames. rewrite uniqueNames_loop.
  unfold OMap.empty, OMap.has. simpl.
  induction (firstOccurrences es) as [|x l IH]; simpl; congruence.
Qed.

Lemma firstOccurrences_incl (es : list AnnotationEntity) (e : AnnotationEntity) :
  In e (firstOccurrences es) -> In e es.
Proof.
  induction es as [|a es IH]; simpl; [tauto|].
  intros [H|H]; [now left|]. right. apply IH.
  now apply filter_In in H.
Qed.

(** Every trimmed text of the input is the trimmed text of a kept entity. *)
Lemma firstOccurrences_covers (es : list AnnotationEntity) (k : jsstring) :
  In k (map trimmedText es) <-> In k (map trimmedText (firstOccurrences es)).
Proof.
  split.
  - induction es as [|a es IH]; simpl; [tauto|].
    intros [H|H]; [now left|].
    destruct (JS.eqb k (trimmedText a)) eqn:E.
    + left. apply eqb_eq in E. congruence.
    + right. apply IH in H. apply in_map_iff in H as [x [Hx Hin]].
      apply in_map_iff. exists x. split; [assumption|].
      apply filter_In. split; [assumption|]. now rewrite Hx, E.
  - intros H. apply in_map_iff in H as [x [Hx Hin]].
    apply in_map_iff. exists x. split; [assumption|].
    now apply firstOccurrences_incl.
Qed.

(** Dropping entities keeps the trimmed texts distinct. *)
Lemma distinct_texts_filter (keep : AnnotationEntity -> bool)
  (es : list AnnotationEntity) :
  NoDup (map trimmedText es) -> NoDup (map trimmedText (filter keep es)).
Proof.
  induction es as [|e es IH]; cbn [filter map]; [trivial|].
  intros Hes. apply NoDup_cons_iff in Hes as [Hfresh Hrest].
  destruct (keep e); [|now apply IH].
  cbn [map]. apply NoDup_cons; [|now apply IH].
  contradict Hfresh.
  apply in_map_iff in Hfresh as [e' [Hsame Hkept]].
  apply filter_In in Hkept as [Hkept _].
  rewrite <- Hsame. now apply in_map.
Qed.

(** No two kept entities have the same trimmed text. *)
Lemma firstOccurrences_NoDup (es : list AnnotationEntity) :
  NoDup (map trimmedText (firstOccurrences es)).
Proof.
  induction es as [|a es IH]; simpl; constructor.
  - intros Hin. apply in_map_iff in Hin as [y [Hy Hin]].
    apply filter_In in Hin as [_ Hne].
    rewrite Hy, eqb_refl in Hne. discriminate.
  - now apply distinct_texts_filter.
Qed.

(** A kept entity is the first entity of the input with its trimmed text. *)
Lemma firstOccurrences_first (es : list AnnotationEntity) (r : AnnotationEntity) :
  In r (firstOccurrences es) ->
  find (fun e => JS.eqb (trimmedText e) (trimmedText r)) es = Some r.
Proof.
  induction es as [|a es IH]; simpl; [tauto|].
  intros [->|H]; [now rewrite eqb_refl|].
  apply filter_In in H as [Hin Hne].
  rewrite eqb_sym. destruct (JS.eqb (trimmedText r) (trimmedText a));
    [discriminate|]. now apply IH.
Qed.

(** The kept entities come in the order of the input. *)
Lemma Subsequence_filter {A : Type} (p : A -> bool) (l : list A) :
  Subsequence (filter p l) l.
Proof.
  induction l as [|x l IH]; simpl; [constructor|].
  destruct (p x); now constructor.
Qed.

Lemma Subsequence_trans {A : Type} (a b c : list A) :
  Subsequence a b -> Subsequence b c -> Subsequence a c.
Proof.
  intros Hab Hbc. revert a Hab.
  induction Hbc as [|x l l' H IH|x l l' H IH]; intros a Hab.
  - assumption.
  - constructor. now apply IH.
  - inversion Hab; subst; constructor; now apply IH.
Qed.

Lemma firstOccurrences_Subsequence (es : list AnnotationEntity) :
  Subsequence (firstOccurrences es) es.
Proof.
  induction es as [|a es IH]; simpl; [apply sub_nil | apply sub_keep].
  eapply Subsequence_trans; [apply Subsequence_filter | exact IH].
Qed.

(** ** Facts about the category counts *)

Lemma categoryName_inj (a b : EntityCategory) :
  categoryName a = categoryName b -> a = b.
Proof.
  destruct a, b; intros H; try reflexivity; vm_compute in H; discriminate.
Qed.

Lemma categoryName_eqb (a b : EntityCategory) :
  JS.eqb (categoryName a) (categoryName b)
  = if EntityCategory_eq_dec a b then true else false.
Proof.
  destruct (EntityCategory_eq_dec a b) as [->|Hne].
  - apply eqb_refl.
  - apply eqb_neq. intros H. apply Hne. now apply categoryName_inj.
Qed.

(** The counting loop, started from any record of counts. *)
Lemma countCategories_loop (es : list AnnotationEntity) (m : OMap.t nat)
  (c : EntityCategory) :
  OMap.get (categoryName c)
    (fold_left
       (fun counts e =>
          let key := categoryName (category e) in
          OMap.set key (orZero (OMap.get key counts) + 1) counts)
       es m)
  = if Nat.eqb (countCategory c es) 0 then OMap.get (categoryName c) m
    else Some (orZero (OMap.get (categoryName c) m) + countCategory c es).
Proof.
  revert m; induction es as [|e es IH]; intros m; [reflexivity|].
  cbn [fold_left]. rewrite IH. rewrite OMapFacts.get_set.
  rewrite categoryName_eqb. unfold countCategory. cbn [map count_occ].
  fold (countCategory c es).
  destruct (EntityCategory_eq_dec (category e) c) as [->|Hne];
    [|reflexivity].
  cbn [orZero Nat.eqb].
  destruct (Nat.eqb (countCategory c es) 0) eqn:E.
  - apply Nat.eqb_eq in E. now rewrite E.
  - f_equal; lia.
Qed.

Lemma countCategories_get (es : list AnnotationEntity) (c : EntityCategory) :
  OMap.get (categoryName c) (countCategories es)
  = if Nat.eqb (countCategory c es) 0 then None
    else Some (countCategory c es).
Proof. unfold countCategories. now rewrite countCategories_loop. Qed.

Lemma countCategories_sum_loop (es : list AnnotationEntity) (m : OMap.t nat) :
  list_sum
    (OMap.values
       (fold_left
          (fun counts e =>
             let key := categoryName (category e) in
             OMap.set key (orZero (OMap.get key counts) + 1) counts)
          es m))
  = list_sum (OMap.values m) + length es.
Proof.
  revert m; induction es as [|e es IH]; intros m; simpl; [lia|].
  rewrite IH, OMapFacts.sum_bump. lia.
Qed.

Lemma countCategories_sum (es : list AnnotationEntity) :
  list_sum (OMap.values (countCategories es)) = length es.
Proof. unfold countCategories. now rewrite countCategories_sum_loop. Qed.

Lemma countCategories_keys_loop (es : list AnnotationEntity) (m : OMap.t nat) :
  NoDup (OMap.keys m) ->
  (forall k, In k (OMap.keys m) -> exists c, k = categoryName c) ->
  let m' :=
    fold_left
      (fun counts e =>
         let key := categoryName (category e) in
         OMap.set key (orZero (OMap.get key counts) + 1) counts)
      es m in
  NoDup (OMap.keys m')
  /\ (forall k, In k (OMap.keys m') -> exists c, k = categoryName c).
Proof.
  revert m; induction es as [|e es IH]; intros m Hnd Hk; [now split|].
  cbn [fold_left]. apply IH.
  - now apply OMapFacts.keys_set_NoDup.
  - intros k Hin. apply OMapFacts.has_in_keys in Hin.
    rewrite OMapFacts.has_set in Hin. apply orb_true_iff in Hin as [H|H].
    + apply eqb_eq in H. now exists (category e).
    + apply Hk. now apply OMapFacts.has_in_keys.
Qed.

Lemma countCategories_keys (es : list AnnotationEntity) :
  NoDup (OMap.keys (countCategories es))
  /\ (forall k, In k (OMap.keys (countCategories es)) ->
        exists c, k = categoryName c).
Proof.
  apply countCategories_keys_loop; [constructor | intros k []].
Qed.

(** ** Facts about the typed-node builder *)

Lemma generateEntityMutationsFrom_length (tbl : CaseTable) (now : Clock)
  (es : list AnnotationEntity) (k : nat) :
  length (generateEntityMutationsFrom tbl now k es) = length es.
Proof.
  revert k; induction es as [|e es IH]; intros k; simpl; [reflexivity|].
  now rewrite IH.
Qed.

Lemma generateEntityMutationsFrom_nth (tbl : CaseTable) (now : Clock)
  (es : list AnnotationEntity) (k i : nat) (e : AnnotationEntity) :
  nth_error es i = Some e ->
  nth_error (generateEntityMutationsFrom tbl now k es) i
  = Some (entityMutation tbl (now (k + i)) e).
Proof.
  revert k i; induction es as [|a es IH]; intros k [|i] H;
    try discriminate; simpl in *.
  - injection H as ->. now rewrite Nat.add_0_r.
  - rewrite (IH (S k) i H). do 3 f_equal. lia.
Qed.

(** Two clocks that agree on the readings taken give the same mutations. *)
Lemma generateEntityMutationsFrom_ext (tbl : CaseTable) (now1 now2 : Clock)
  (es : list AnnotationEntity) (k : nat) :
  (forall i, i < length es -> now1 (k + i) = now2 (k + i)) ->
  generateEntityMutationsFrom tbl now1 k es
  = generateEntityMutationsFrom tbl now2 k es.
Proof.
  revert k; induction es as [|e es IH]; intros k H; simpl; [reflexivity|].
  f_equal.
  - specialize (H 0 ltac:(simpl; lia)). rewrite Nat.add_0_r in H.
    now rewrite H.
  - apply IH. intros i Hi. specialize (H (S i) ltac:(simpl; lia)).
    now replace (S k + i) with (k + S i) by lia.
Qed.

Lemma generateEntityMutationsFrom_indexed (tbl : CaseTable) (now : Clock)
  (es : list AnnotationEntity) (k : nat) :
  generateEntityMutationsFrom tbl now k es
  = map (fun ie => entityMutation tbl (now (fst ie)) (snd ie)) (indexed k es).
Proof.
  revert k; induction es as [|e es IH]; intros k; [reflexivity|].
  unfold indexed. simpl. f_equal. apply IH.
Qed.

(** *** The benefit shape *)

Lemma benefit_mutation_text (tbl : CaseTable) (now : jsstring)
  (e : AnnotationEntity) :
  category e = benefit ->
  mutation (entityMutation tbl now e)
  = benefitHead ++ dq ++ escapeGraphQL (trim (text e)) ++ dq
      ++ benefitMiddle ++ dq ++ now ++ dq ++ benefitTail.
Proof.
  intros H. unfold entityMutation. rewrite H.
  generalize (escapeGraphQL (trim (text e))) as name. intros name.
  unfold benefitHead, benefitMiddle, benefitTail.
  cbn [mutation lines CATEGORY_TYPE_MAP dgraphType].
  rewrite <- !app_assoc. reflexivity.
Qed.

Lemma render_benefitShape (name now : jsstring) :
  render (benefitShape name now)
  = benefitHead ++ dq ++ name ++ dq ++ benefitMiddle ++ dq ++ now ++ dq
      ++ benefitTail.
Proof.
  unfold render, benefitShape, benefitHead, benefitMiddle, benefitTail.
  cbn [typeName inputFields upsertFlag selected map renderField app lines].
  rewrite <- !app_assoc. reflexivity.
Qed.

(** A substring without a double quote occurs in a text with two quoted
    values only inside one of the five parts. *)
Lemma includes_quoted (n a x b y c : jsstring) :
  ~ In 34%N n ->
  includes n (a ++ dq ++ x ++ dq ++ b ++ dq ++ y ++ dq ++ c)
  = includes n a || includes n x || includes n b || includes n y
    || includes n c.
Proof.
  intros Hn. unfold dq. cbn [app].
  rewrite !(includes_split_at _ _ _ _ Hn).
  now rewrite !orb_assoc.
Qed.

Lemma countCategory_all (es : list AnnotationEntity) :
  list_sum (map (fun c => countCategory c es) allCategories) = length es.
Proof.
  induction es as [|e es IH]; [reflexivity|].
  unfold countCategory, allCategories in *. cbn [map count_occ length].
  cbn [map list_sum] in IH. rewrite <- IH.
  destruct (category e); cbn; lia.
Qed.

(** *** Identifier derivation *)

Lemma generateNameId_normalizedText (tbl : CaseTable) (e : AnnotationEntity) :
  generateNameId tbl e
  = nameIdPrefix (CATEGORY_TYPE_MAP (category e)) ++ lit "::"
      ++ normalizedText tbl (text e).
Proof.
  unfold generateNameId, normalizedText.
  rewrite replaceRuns_trim, replaceClass_delete.
  do 2 f_equal. apply filter_ext. intros c. apply negb_involutive.
Qed.

Lemma normalizedText_idChars (tbl : CaseTable) (t : jsstring) :
  Forall (fun c => isIdChar c = true) (normalizedText tbl t).
Proof.
  apply Forall_forall. intros c H. now apply filter_In in H.
Qed.

Lemma lowerFrom_ascii_space (tbl : CaseTable) (whole : jsstring) (i : nat)
  (t : jsstring) :
  Forall (fun c => isAscii c = true /\ isWhiteSpace c = true) t ->
  lowerFrom tbl whole i t = t.
Proof.
  revert i; induction t as [|c t IH]; intros i H; [reflexivity|].
  inversion H as [|? ? Hc Ht]; subst. destruct Hc as [Ha Hw].
  cbn [lowerFrom]. rewrite Ha, (IH _ Ht). cbn [app]. f_equal.
  unfold asciiLower.
  destruct ((65 <=? c)%N && (c <=? 90)%N) eqn:E; [|reflexivity].
  apply andb_true_iff in E as [E1 E2].
  apply N.leb_le in E1, E2. unfold isWhiteSpace in Hw.
  repeat (apply orb_true_iff in Hw as [Hw|Hw]);
    try (apply andb_true_iff in Hw as [H1 H2]; apply N.leb_le in H1, H2);
    try apply N.eqb_eq in Hw; lia.
Qed.

Lemma words_all_space (t : jsstring) :
  Forall (fun c => isWhiteSpace c = true) t -> words t = [].
Proof.
  induction 1 as [|c t Hc _ IH]; [reflexivity|].
  now rewrite words_cons_space.
Qed.

(** Text made of Basic Latin white space normalises to the empty string. *)
Lemma normalizedText_ascii_space (tbl : CaseTable) (t : jsstring) :
  Forall (fun c => isAscii c = true /\ isWhiteSpace c = true) t ->
  normalizedText tbl t = [].
Proof.
  intros H. unfold normalizedText.
  unfold toLowerCase.
  rewrite (lowerFrom_ascii_space tbl t 0 t H), words_all_space;
    [reflexivity|].
  eapply Forall_impl; [|exact H]. now intros c [_ Hw].
Qed.

(** ** The scenarios of the specification, evaluated *)

(** Two entities with the same text: one entry node, two typed nodes with
    the same identifier. *)
Example scenario_repeated_text :
  let b := generateMutationBatch caselessTable morning nhaDocument in
  length (nameNodes b) = 1
  /\ length (entityNodes b) = 2
  /\ map (generateNameId caselessTable) nhaEntities
     = [lit "org::national_health_authority_nha";
        lit "org::national_health_authority_nha"]
  /\ forallb
       (fun m =>
          includes
            (lit "name_id: " ++ dq
               ++ lit "org::national_health_authority_nha" ++ dq)
            (mutation m))
       (entityNodes b) = true.
Proof. vm_compute. repeat split. Qed.

(** A value entity whose text starts with the rupee sign. *)
Example scenario_value :
  mutation
    (entityMutation caselessTable (morning 0)
       {| id := lit "e1"; text := 8377%N :: lit "500 crore"; start := 0;
          end_ := 10; category := value |})
  = lines [
      lit "mutation {";
      lit "  add_Data_Value_(input: [{";
      lit "    categorical_value: " ++ dq ++ 8377%N :: lit "500 crore" ++ dq;
      lit "  }]) {";
      lit "    _Data_Value_ {";
      lit "      categorical_value";
      lit "    }";
      lit "  }";
      lit "}" ].
Proof. reflexivity. Qed.

(** No entities: no mutations, no counts. *)
Example scenario_no_entities :
  generateMutationBatch caselessTable morning
    {| document_ := sampleDescriptor; entities := [];
       relationships_ := None; saved_at := None |}
  = {| documentId := lit "doc-1";
       documentPath := lit "qa/doc-1.txt";
       nameNodes := [];
       entityNodes := [];
       relationships := [];
       summary :=
         {| totalNameNodes := 0; totalEntityNodes := 0;
            totalRelationships := 0; categoryCounts := [] |} |}.
Proof. reflexivity. Qed.

(** White space inside a text of stripped characters leaves an underscore. *)
Example normalization_keeps_inner_run :
  generateNameId caselessTable (entityOf "e1" " ( ) " region)
  = lit "region::_".
Proof. reflexivity. Qed.

(** ** The properties of the generator *)

(** C1, as amended.  For every input document the batch has an empty
    sequence of relationship mutations and [summary.totalRelationships] is
    0, whatever relationships the document holds: they are accepted, but
    neither counted nor translated, and no field of the batch depends on
    them. *)
Theorem relationships_not_counted (tbl : CaseTable) (now : Clock)
  (doc : AnnotationDocument) (rels : option (list AnnotationRelationship)) :
  let b :=
    generateMutationBatch tbl now
      {| document_ := document_ doc;
         entities := entities doc;
         relationships_ := rels;
         saved_at := saved_at doc |} in
  relationships b = []
  /\ totalRelationships (summary b) = 0
  /\ b = generateMutationBatch tbl now doc.
Proof. repeat split. Qed.

(** C1, as stated, fails: a document with one relationship gets
    [totalRelationships] 0. *)
Lemma totalRelationships_is_not_input_count :
  relationshipCount nhaDocument = 1
  /\ totalRelationships
       (summary (generateMutationBatch caselessTable morning nhaDocument))
     <> relationshipCount nhaDocument.
Proof. split; [reflexivity | vm_compute; discriminate]. Qed.

(** C2, as amended.  The batch is a function of the document, the mapping
    table and the readings of the clock the call takes, one for each entity:
    two calls on the same document that take the same readings yield the
    same batch, every field and every mutation text equal. *)
Theorem batch_determined_by_document_and_clock (tbl : CaseTable)
  (now1 now2 : Clock) (doc : AnnotationDocument) :
  (forall k, k < length (entities doc) -> now1 k = now2 k) ->
  generateMutationBatch tbl now1 doc = generateMutationBatch tbl now2 doc.
Proof.
  intros H. unfold generateMutationBatch, generateEntityMutations.
  now rewrite (generateEntityMutationsFrom_ext tbl now1 now2 _ 0 H).
Qed.

Lemma batch_determined_witness :
  (forall k, k < length (entities nhaDocument) ->
     morning k = morningThenEvening k)
  /\ generateMutationBatch caselessTable morning nhaDocument
     = generateMutationBatch caselessTable morningThenEvening nhaDocument.
Proof.
  assert (H : forall k, k < length (entities nhaDocument) ->
                morning k = morningThenEvening k).
  { intros k Hk. unfold morningThenEvening.
    destruct (Nat.ltb_spec k 2) as [_|Hge]; [reflexivity|].
    simpl in Hk. lia. }
  split; [exact H|].
  exact (batch_determined_by_document_and_clock caselessTable morning
           morningThenEvening nhaDocument H).
Defined.

(** C2, as stated, fails: two calls on the same document at different
    times yield batches whose typed-node mutation texts differ. *)
Lemma batch_depends_on_clock :
  generateMutationBatch caselessTable morning nhaDocument
  <> generateMutationBatch caselessTable evening nhaDocument.
Proof.
  intros H.
  apply (f_equal (fun b => map mutation (entityNodes b))) in H.
  vm_compute in H. discriminate.
Qed.

(** C3.  The entry-node builder emits the entry-node mutations of the first
    occurrences: one for every distinct trimmed text (the key is the trimmed
    text itself, so texts that differ by case or by inner white space are
    kept apart), built from the first entity of the input with that text,
    in the order of the input. *)
Theorem one_entry_node_per_trimmed_text (es : list AnnotationEntity) :
  let kept := firstOccurrences es in
  generateNameMutations es = map nameMutation kept
  /\ NoDup (map trimmedText kept)
  /\ incl (map trimmedText es) (map trimmedText kept)
  /\ incl (map trimmedText kept) (map trimmedText es)
  /\ Forall
       (fun r =>
          find (fun e => JS.eqb (trimmedText e) (trimmedText r)) es = Some r)
       kept
  /\ Subsequence kept es
  /\ length (generateNameMutations es)
     = length (nodup (list_eq_dec N.eq_dec) (map trimmedText es))
  /\ map description (generateNameMutations caseVariants)
     = [lit "_Name_ node for " ++ dq ++ lit "NHA" ++ dq;
        lit "_Name_ node for " ++ dq ++ lit "nha" ++ dq;
        lit "_Name_ node for " ++ dq ++ lit "Ayushman Bharat" ++ dq;
        lit "_Name_ node for " ++ dq ++ lit "Ayushman  Bharat" ++ dq].
Proof.
  intros kept.
  assert (Hin : incl (map trimmedText es) (map trimmedText kept)).
  { intros k. apply firstOccurrences_covers. }
  assert (Hout : incl (map trimmedText kept) (map trimmedText es)).
  { intros k. apply firstOccurrences_covers. }
  assert (Hmut : generateNameMutations es = map nameMutation kept).
  { unfold generateNameMutations. now rewrite uniqueNames_values. }
  repeat split; try assumption.
  - apply firstOccurrences_NoDup.
  - apply Forall_forall. intros r. apply firstOccurrences_first.
  - apply firstOccurrences_Subsequence.
  - rewrite Hmut, length_map, <- (length_map trimmedText kept).
    apply Nat.le_antisymm.
    + apply NoDup_incl_length; [apply firstOccurrences_NoDup|].
      intros k Hk. apply nodup_In. now apply Hout.
    + apply NoDup_incl_length; [apply NoDup_nodup|].
      intros k Hk. apply nodup_In in Hk. now apply Hin.
Qed.

(** C4.  The typed-node builder emits one typed-node mutation for every
    entity, in the order of the input, also when texts repeat: the k-th
    mutation is built from the k-th entity, and the lengths agree. *)
Theorem one_typed_node_per_entity (tbl : CaseTable) (now : Clock)
  (es : list AnnotationEntity) :
  length (generateEntityMutations tbl now es) = length es
  /\ generateEntityMutations tbl now es
     = map (fun ie => entityMutation tbl (now (fst ie)) (snd ie))
         (indexed 0 es)
  /\ map fst (indexed 0 es) = seq 0 (length es)
  /\ map snd (indexed 0 es) = es
  /\ length (generateEntityMutations tbl now nhaEntities) = 2.
Proof.
  unfold generateEntityMutations. repeat split.
  - apply generateEntityMutationsFrom_length.
  - apply generateEntityMutationsFrom_indexed.
  - unfold indexed. generalize 0 as k.
    induction es as [|e es IH]; intros k; simpl; [reflexivity|].
    now rewrite IH.
  - unfold indexed. generalize 0 as k.
    induction es as [|e es IH]; intros k; simpl; [reflexivity|].
    now rewrite IH.
Qed.

(** C5.  Identifier derivation returns the identifier prefix of the
    category, then [::], then the text lower-cased, trimmed, with every run
    of white space turned into one underscore and every code unit outside
    [a-z0-9_-] removed.  The identifier depends on the text and the category
    only, and the organization [National Health Authority (NHA)] gets
    [org::national_health_authority_nha]. *)
Theorem generateNameId_derivation (tbl : CaseTable) (e : AnnotationEntity)
  (otherId : jsstring) (otherStart otherEnd : Z) :
  generateNameId tbl e
  = nameIdPrefix (CATEGORY_TYPE_MAP (category e)) ++ lit "::"
      ++ normalizedText tbl (text e)
  /\ Forall (fun c => isIdChar c = true) (normalizedText tbl (text e))
  /\ generateNameId tbl e
     = generateNameId tbl
         {| id := otherId; text := text e; start := otherStart;
            end_ := otherEnd; category := category e |}
  /\ generateNameId tbl
       (entityOf "e1" "National Health Authority (NHA)" organization)
     = lit "org::national_health_authority_nha".
Proof.
  repeat split.
  - apply generateNameId_normalizedText.
  - apply normalizedText_idChars.
Qed.

(** C6, as amended.  Escaping rewrites the backslash, the double quote, the
    line feed, the carriage return and the tab, each to its backslash
    escape, and keeps every other code unit; for every text made of source
    characters of the wire format, reading the escaped text as the
    characters of a string literal gives the text back, the example among
    them. *)
Theorem escapeGraphQL_round_trip (s : jsstring) :
  forallb isSourceCharacter s = true ->
  (forall t, escapeGraphQL t = flat_map escapeChar t)
  /\ parseStringCharacters (escapeGraphQL s) = Some s
  /\ escapeGraphQL quoteBackslash
     = lit "a" ++ bs ++ dq ++ bs ++ bs ++ lit "b"
  /\ parseStringCharacters (escapeGraphQL quoteBackslash)
     = Some quoteBackslash.
Proof.
  intros Hs. repeat split.
  - apply escapeGraphQL_chars.
  - now apply parse_escapeGraphQL.
Qed.

Lemma escapeGraphQL_round_trip_witness :
  forallb isSourceCharacter specialsInARow = true
  /\ parseStringCharacters (escapeGraphQL specialsInARow)
     = Some specialsInARow.
Proof.
  split; [reflexivity|].
  exact (proj1 (proj2 (escapeGraphQL_round_trip specialsInARow eq_refl))).
Defined.

(** C6, as stated, fails: a text with a form feed is left as it is by
    escaping, and the form feed is no source character of a string
    literal. *)
Lemma control_character_is_not_read_back :
  escapeGraphQL formFeedText = formFeedText
  /\ parseStringCharacters (escapeGraphQL formFeedText) <> Some formFeedText.
Proof. split; [reflexivity | vm_compute; discriminate]. Qed.

(** C7.  In the summary of every batch, the count recorded for a category is
    the number of entities of that category (a category without entities
    has no entry), the record has one entry for a category at most, and the
    counts add up to the number of entities. *)
Theorem categoryCounts_count_entities (tbl : CaseTable) (now : Clock)
  (doc : AnnotationDocument) :
  let counts := categoryCounts (summary (generateMutationBatch tbl now doc)) in
  (forall c,
     OMap.get (categoryName c) counts
     = if Nat.eqb (countCategory c (entities doc)) 0 then None
       else Some (countCategory c (entities doc)))
  /\ NoDup (OMap.keys counts)
  /\ Forall (fun k => exists c, k = categoryName c) (OMap.keys counts)
  /\ list_sum (OMap.values counts) = length (entities doc)
  /\ list_sum
       (map (fun c => orZero (OMap.get (categoryName c) counts))
          allCategories)
     = length (entities doc).
Proof.
  cbn [generateMutationBatch summary categoryCounts].
  repeat split.
  - intros c. apply countCategories_get.
  - apply countCategories_keys.
  - apply Forall_forall. apply countCategories_keys.
  - apply countCategories_sum.
  - rewrite <- (countCategory_all (entities doc)).
    f_equal. apply map_ext. intros c. rewrite countCategories_get.
    destruct (Nat.eqb (countCategory c (entities doc)) 0) eqn:E;
      [|reflexivity].
    apply Nat.eqb_eq in E. now rewrite E.
Qed.

(** C8.  For an entity of category benefit the typed-node builder produces
    the mutation of the benefit shape: the object literal has a [names] field
    that creates an entry node in place from the escaped trimmed text, and a
    [node_created_on] field with the reading of the clock; it has no
    [name_id] field and the call has no upsert flag.  In the text of the
    mutation, [name_id] and [upsert] occur only inside the two embedded
    values, if at all. *)
Theorem benefit_mutation_shape (tbl : CaseTable) (now : jsstring)
  (e : AnnotationEntity) :
  category e = benefit ->
  let m := mutation (entityMutation tbl now e) in
  let name := escapeGraphQL (trim (text e)) in
  m = render (benefitShape name now)
  /\ map fieldName (inputFields (benefitShape name now))
     = [lit "names"; lit "node_created_on"]
  /\ upsertFlag (benefitShape name now) = false
  /\ (forallb isSourceCharacter (trim (text e)) = true ->
      parseStringCharacters name = Some (trim (text e)))
  /\ includes (lit "names: [{ name: " ++ dq ++ name ++ dq ++ lit " }]") m
     = true
  /\ includes (lit "node_created_on: " ++ dq ++ now ++ dq) m = true
  /\ includes (lit "name_id") m
     = includes (lit "name_id") name || includes (lit "name_id") now
  /\ includes (lit "upsert") m
     = includes (lit "upsert") name || includes (lit "upsert") now.
Proof.
  intros H m name. subst m.
  rewrite (benefit_mutation_text tbl now e H). fold name.
  split; [now rewrite render_benefitShape|].
  split; [reflexivity|]. split; [reflexivity|].
  split; [exact (parse_escapeGraphQL (trim (text e)))|].
  split.
  { apply includes_spec.
    exists (lit "mutation {" ++ nl
            ++ lit "  add_Indian_Union_Government_Service_Benefit_(input: [{"
            ++ nl ++ lit "    "),
      (nl ++ lit "    node_created_on: " ++ dq ++ now ++ dq ++ benefitTail).
    unfold benefitHead, benefitMiddle. rewrite <- !app_assoc. reflexivity. }
  split.
  { apply includes_spec.
    exists (benefitHead ++ dq ++ name ++ dq ++ lit " }]" ++ nl ++ lit "    "),
      benefitTail.
    unfold benefitMiddle. rewrite <- !app_assoc. reflexivity. }
  split.
  - rewrite includes_quoted by (vm_compute; intuition discriminate).
    replace (includes (lit "name_id") benefitHead) with false
      by (vm_compute; reflexivity).
    replace (includes (lit "name_id") benefitMiddle) with false
      by (vm_compute; reflexivity).
    replace (includes (lit "name_id") benefitTail) with false
      by (vm_compute; reflexivity).
    now rewrite !orb_false_r.
  - rewrite includes_quoted by (vm_compute; intuition discriminate).
    replace (includes (lit "upsert") benefitHead) with false
      by (vm_compute; reflexivity).
    replace (includes (lit "upsert") benefitMiddle) with false
      by (vm_compute; reflexivity).
    replace (includes (lit "upsert") benefitTail) with false
      by (vm_compute; reflexivity).
    now rewrite !orb_false_r.
Qed.

Lemma benefit_mutation_witness :
  category sampleBenefit = benefit
  /\ includes (lit "name_id")
       (mutation (entityMutation caselessTable (morning 0) sampleBenefit))
     = false
  /\ includes (lit "upsert")
       (mutation (entityMutation caselessTable (morning 0) sampleBenefit))
     = includes (lit "upsert") (text sampleBenefit).
Proof.
  split; [reflexivity|].
  pose proof (benefit_mutation_shape caselessTable (morning 0) sampleBenefit
                eq_refl) as H.
  cbv zeta in H. destruct H as (_ & _ & _ & _ & _ & _ & Hid & Hup).
  split; [rewrite Hid | rewrite Hup]; vm_compute; reflexivity.
Defined.

(** C9.  When the text of an entity normalises to the empty string,
    identifier derivation still returns an identifier: the identifier prefix
    of the category followed by [::] and nothing else. *)
Theorem generateNameId_of_empty_normalization (tbl : CaseTable)
  (e : AnnotationEntity) :
  normalizedText tbl (text e) = [] ->
  generateNameId tbl e
  = nameIdPrefix (CATEGORY_TYPE_MAP (category e)) ++ lit "::".
Proof.
  intros H. rewrite generateNameId_normalizedText, H.
  now rewrite app_nil_r.
Qed.

Lemma generateNameId_of_empty_normalization_witness :
  normalizedText caselessTable (text punctuationOnly) = []
  /\ generateNameId caselessTable punctuationOnly = lit "ben::".
Proof.
  split; [reflexivity|].
  exact (generateNameId_of_empty_normalization caselessTable punctuationOnly
           eq_refl).
Defined.

(** C10.  In every batch the totals of the summary are the lengths of the
    three sequences of mutations of the batch. *)
Theorem summary_totals_are_lengths (tbl : CaseTable) (now : Clock)
  (doc : AnnotationDocument) :
  let b := generateMutationBatch tbl now doc in
  totalNameNodes (summary b) = length (nameNodes b)
  /\ totalEntityNodes (summary b) = length (entityNodes b)
  /\ totalRelationships (summary b) = length (relationships b).
Proof. repeat split. Qed.

(** ** More about escaping *)

Lemma escapeChar_special (c : N) :
  isSpecial c = true ->
  exists d, escapeChar c = [92%N; d]
            /\ (N.eqb d 10 || N.eqb d 13 || N.eqb d 9) = false.
Proof.
  unfold isSpecial, escapeChar. intros H.
  destruct (N.eqb_spec c 92); [now exists 92%N|].
  destruct (N.eqb_spec c 34); [now exists 34%N|].
  destruct (N.eqb_spec c 10); [now exists 110%N|].
  destruct (N.eqb_spec c 13); [now exists 114%N|].
  destruct (N.eqb_spec c 9); [now exists 116%N|].
  discriminate.
Qed.

Lemma escapeChar_plain (c : N) :
  isSpecial c = false ->
  escapeChar c = [c] /\ (N.eqb c 10 || N.eqb c 13 || N.eqb c 9) = false.
Proof.
  unfold isSpecial, escapeChar. intros H.
  destruct (N.eqb c 92); [discriminate|].
  destruct (N.eqb c 34); [discriminate|].
  destruct (N.eqb c 10); [discriminate|].
  destruct (N.eqb c 13); [discriminate|].
  destruct (N.eqb c 9); [discriminate|].
  now split.
Qed.

Lemma escapeGraphQL_cons (c : N) (s : jsstring) :
  escapeGraphQL (c :: s) = escapeChar c ++ escapeGraphQL s.
Proof. now rewrite !escapeGraphQL_chars. Qed.

Lemma escapeGraphQL_length (s : jsstring) :
  length (escapeGraphQL s) = length s + length (filter isSpecial s).
Proof.
  induction s as [|c s IH]; [reflexivity|].
  rewrite escapeGraphQL_cons, length_app, IH. cbn [filter length].
  destruct (isSpecial c) eqn:E.
  - destruct (escapeChar_special c E) as [d [-> _]]. simpl. lia.
  - destruct (escapeChar_plain c E) as [-> _]. simpl. lia.
Qed.

(** X1.  Escaping a concatenation is concatenating the escaped parts: the
    five replacements never match across the seam. *)
Theorem escapeGraphQL_app (a b : jsstring) :
  escapeGraphQL (a ++ b) = escapeGraphQL a ++ escapeGraphQL b.
Proof. rewrite !escapeGraphQL_chars. apply flat_map_app. Qed.

Ltac escape_cases c :=
  destruct (N.eqb_spec c 92);
  [ | destruct (N.eqb_spec c 34);
      [ | destruct (N.eqb_spec c 10);
          [ | destruct (N.eqb_spec c 13);
              [ | destruct (N.eqb_spec c 9) ] ] ] ].

Lemma escapeChar_inj_app (c d : N) (x y : jsstring) :
  escapeChar c ++ x = escapeChar d ++ y -> c = d /\ x = y.
Proof.
  unfold escapeChar. escape_cases c; escape_cases d;
    cbn [app]; intros H; injection H; intros; subst;
    try discriminate; try congruence; now split.
Qed.

Lemma escapeGraphQL_inj (a b : jsstring) :
  escapeGraphQL a = escapeGraphQL b -> a = b.
Proof.
  rewrite !escapeGraphQL_chars.
  revert b; induction a as [|c a IH]; intros [|d b] H; cbn [flat_map] in H.
  - reflexivity.
  - exfalso. destruct (isSpecial d) eqn:S.
    + destruct (escapeChar_special d S) as [x [E _]]. rewrite E in H.
      discriminate.
    + destruct (escapeChar_plain d S) as [E _]. rewrite E in H.
      discriminate.
  - exfalso. destruct (isSpecial c) eqn:S.
    + destruct (escapeChar_special c S) as [x [E _]]. rewrite E in H.
      discriminate.
    + destruct (escapeChar_plain c S) as [E _]. rewrite E in H.
      discriminate.
  - apply escapeChar_inj_app in H as [-> H]. f_equal. now apply IH.
Qed.

(** X2.  Escaping loses nothing: two texts have the same escaped form only
    when they are the same text. *)
Theorem escapeGraphQL_injective (a b : jsstring) :
  escapeGraphQL a = escapeGraphQL b <-> a = b.
Proof.
  split; [apply escapeGraphQL_inj|].
  intros E. now rewrite E.
Qed.

(** X3.  The escaped form holds no line feed, carriage return or tab, and is
    at least as long as the text and at most twice as long. *)
Theorem escapeGraphQL_output (s : jsstring) :
  forallb (fun c => negb (N.eqb c 10 || N.eqb c 13 || N.eqb c 9))
    (escapeGraphQL s) = true
  /\ length s <= length (escapeGraphQL s)
  /\ length (escapeGraphQL s) <= 2 * length s.
Proof.
  split.
  - induction s as [|c s IH]; [reflexivity|].
    rewrite escapeGraphQL_cons, forallb_app, IH, andb_true_r.
    destruct (isSpecial c) eqn:E.
    + destruct (escapeChar_special c E) as [d [-> Hd]].
      cbn [forallb]. now rewrite Hd.
    + destruct (escapeChar_plain c E) as [-> Hc].
      cbn [forallb]. now rewrite Hc.
  - rewrite escapeGraphQL_length.
    pose proof (filter_length_le isSpecial s). lia.
Qed.

Lemma escapeGraphQL_plain (s : jsstring) :
  forallb (fun c => negb (isSpecial c)) s = true -> escapeGraphQL s = s.
Proof.
  induction s as [|c s IH]; [reflexivity|].
  cbn [forallb]. intros H. apply andb_true_iff in H as [Hc Hs].
  rewrite escapeGraphQL_cons, (IH Hs).
  apply negb_true_iff in Hc.
  now destruct (escapeChar_plain c Hc) as [-> _].
Qed.

(** X4.  Escaping leaves a text as it is exactly when the text holds none of
    the five special code units. *)
Theorem escapeGraphQL_fixes_plain_text (s : jsstring) :
  escapeGraphQL s = s <-> forallb (fun c => negb (isSpecial c)) s = true.
Proof.
  split; [|apply escapeGraphQL_plain].
  intros H. apply (f_equal (@length N)) in H.
  rewrite escapeGraphQL_length in H.
  assert (E : filter isSpecial s = []).
  { destruct (filter isSpecial s); [reflexivity | simpl in H; lia]. }
  clear H. induction s as [|c s IH]; [reflexivity|].
  simpl in E |- *. destruct (isSpecial c); [discriminate|]. now apply IH.
Qed.

(** ** More about identifiers *)

Ltac split_comparisons :=
  repeat match goal with
    | |- context [N.leb ?a ?b] =>
        destruct (N.leb_spec a b); try (exfalso; lia)
    | |- context [N.eqb ?a ?b] =>
        destruct (N.eqb_spec a b); try (exfalso; lia)
    | |- context [N.ltb ?a ?b] =>
        destruct (N.ltb_spec a b); try (exfalso; lia)
    end.

Lemma isIdChar_not_special (c : N) :
  isIdChar c = true -> isSpecial c = false.
Proof.
  unfold isSpecial. intros H.
  destruct (N.eqb_spec c 92); [now subst|].
  destruct (N.eqb_spec c 34); [now subst|].
  destruct (N.eqb_spec c 10); [now subst|].
  destruct (N.eqb_spec c 13); [now subst|].
  destruct (N.eqb_spec c 9); [now subst|].
  reflexivity.
Qed.

Lemma isIdChar_not_colon (c : N) : isIdChar c = true -> N.eqb c 58 = false.
Proof. intros H. destruct (N.eqb_spec c 58); [now subst | reflexivity]. Qed.

Lemma prefix_plain (c : EntityCategory) :
  forallb (fun x => negb (isSpecial x) && negb (N.eqb x 58))
    (nameIdPrefix (CATEGORY_TYPE_MAP c)) = true.
Proof. now destruct c. Qed.

Lemma prefix_inj (a b : EntityCategory) :
  nameIdPrefix (CATEGORY_TYPE_MAP a) = nameIdPrefix (CATEGORY_TYPE_MAP b) ->
  a = b.
Proof.
  destruct a, b; intros H; try reflexivity; vm_compute in H; discriminate.
Qed.

(** X5.  An identifier holds none of the special code units, so the mutation
    embeds it as it is. *)
Theorem generateNameId_needs_no_escape (tbl : CaseTable) (e : AnnotationEntity) :
  escapeGraphQL (generateNameId tbl e) = generateNameId tbl e.
Proof.
  apply escapeGraphQL_plain.
  rewrite generateNameId_normalizedText, !forallb_app.
  apply andb_true_iff; split; [|apply andb_true_iff; split].
  - pose proof (prefix_plain (category e)) as H.
    rewrite forallb_forall in H |- *. intros x Hx.
    specialize (H x Hx). now apply andb_true_iff in H.
  - reflexivity.
  - apply forallb_forall. intros x Hx.
    pose proof (normalizedText_idChars tbl (text e)) as H.
    rewrite Forall_forall in H.
    now rewrite (isIdChar_not_special x (H x Hx)).
Qed.

(** Two texts with a colon after a part without colons: the parts agree. *)
Lemma split_at_colon (a b x y : jsstring) :
  forallb (fun c => negb (N.eqb c 58)) a = true ->
  forallb (fun c => negb (N.eqb c 58)) b = true ->
  a ++ 58%N :: x = b ++ 58%N :: y -> a = b /\ x = y.
Proof.
  revert b; induction a as [|c a IH]; intros [|d b] Ha Hb H;
    cbn [forallb app] in *.
  - now injection H.
  - injection H as <- _. now rewrite N.eqb_refl in Hb.
  - injection H as -> _. now rewrite N.eqb_refl in Ha.
  - injection H as -> H.
    apply andb_true_iff in Ha as [_ Ha]. apply andb_true_iff in Hb as [_ Hb].
    destruct (IH b Ha Hb H) as [-> ->]. now split.
Qed.

(** X6.  Two entities get the same identifier exactly when they have the
    same category and the same normalised text: identifiers of different
    categories never collide. *)
Theorem generateNameId_collisions (tbl : CaseTable) (e1 e2 : AnnotationEntity) :
  generateNameId tbl e1 = generateNameId tbl e2
  <-> category e1 = category e2
      /\ normalizedText tbl (text e1) = normalizedText tbl (text e2).
Proof.
  rewrite !generateNameId_normalizedText. split.
  - intros H. change (lit "::") with [58%N; 58%N] in H. cbn [app] in H.
    apply split_at_colon in H as [Hp Hn].
    + split; [now apply prefix_inj | now injection Hn].
    + pose proof (prefix_plain (category e1)) as P.
      rewrite forallb_forall in P |- *. intros x Hx.
      specialize (P x Hx). now apply andb_true_iff in P.
    + pose proof (prefix_plain (category e2)) as P.
      rewrite forallb_forall in P |- *. intros x Hx.
      specialize (P x Hx). now apply andb_true_iff in P.
  - now intros [-> ->].
Qed.

Lemma lowerFrom_ascii (tbl : CaseTable) (whole : jsstring) (i : nat)
  (t : jsstring) :
  forallb isAscii t = true -> lowerFrom tbl whole i t = map asciiLower t.
Proof.
  revert i; induction t as [|c t IH]; intros i H; [reflexivity|].
  cbn [forallb] in H. apply andb_true_iff in H as [Hc Ht].
  cbn [lowerFrom map]. now rewrite Hc, (IH _ Ht).
Qed.

Lemma isWhiteSpace_asciiLower (c : N) :
  isWhiteSpace (asciiLower c) = isWhiteSpace c.
Proof.
  unfold asciiLower.
  destruct (N.leb_spec 65 c); [|reflexivity].
  destruct (N.leb_spec c 90); [|reflexivity].
  cbn [andb].
  assert (W : forall x, (33 <= x <= 159)%N -> isWhiteSpace x = false).
  { intros x Hx. unfold isWhiteSpace. split_comparisons. reflexivity. }
  rewrite !W by lia. reflexivity.
Qed.

Lemma trimStart_lower (s : jsstring) :
  trimStart (map asciiLower s) = map asciiLower (trimStart s).
Proof.
  induction s as [|c s IH]; [reflexivity|].
  cbn [map trimStart]. rewrite isWhiteSpace_asciiLower, IH.
  now destruct (isWhiteSpace c).
Qed.

Lemma trimEnd_lower (s : jsstring) :
  trimEnd (map asciiLower s) = map asciiLower (trimEnd s).
Proof.
  induction s as [|c s IH]; [reflexivity|].
  cbn [map]. rewrite !trimEnd_cons, IH, isWhiteSpace_asciiLower.
  destruct (trimEnd s); [|reflexivity].
  now destruct (isWhiteSpace c).
Qed.

Lemma trim_lower (s : jsstring) :
  trim (map asciiLower s) = map asciiLower (trim s).
Proof. unfold trim. now rewrite trimStart_lower, trimEnd_lower. Qed.

(** X7.  Two entities of one category whose Basic Latin texts agree after
    trimming, or differ there by the case of letters only, get the same
    identifier. *)
Theorem generateNameId_of_case_variants (tbl : CaseTable)
  (e1 e2 : AnnotationEntity) :
  forallb isAscii (text e1) = true ->
  forallb isAscii (text e2) = true ->
  category e1 = category e2 ->
  map asciiLower (trim (text e1)) = map asciiLower (trim (text e2)) ->
  generateNameId tbl e1 = generateNameId tbl e2.
Proof.
  intros A1 A2 Hc Ht.
  rewrite !generateNameId_normalizedText, Hc. do 2 f_equal.
  unfold normalizedText, toLowerCase.
  rewrite (lowerFrom_ascii tbl _ 0 _ A1), (lowerFrom_ascii tbl _ 0 _ A2).
  rewrite <- (words_trim (map asciiLower (text e1))).
  rewrite <- (words_trim (map asciiLower (text e2))).
  now rewrite !trim_lower, Ht.
Qed.

Lemma generateNameId_of_case_variants_witness :
  forallb isAscii (lit " NHA ") = true
  /\ map asciiLower (trim (lit " NHA ")) = map asciiLower (trim (lit "nha"))
  /\ generateNameId caselessTable (entityOf "e3" " NHA " organization)
     = generateNameId caselessTable (entityOf "e2" "nha" organization).
Proof.
  split; [reflexivity|]. split; [reflexivity|].
  exact (generateNameId_of_case_variants caselessTable
           (entityOf "e3" " NHA " organization)
           (entityOf "e2" "nha" organization)
           eq_refl eq_refl eq_refl eq_refl).
Defined.

(** ** More about the entry-node builder *)

Lemma Subsequence_length {A : Type} (a b : list A) :
  Subsequence a b -> length a <= length b.
Proof. induction 1; simpl; lia. Qed.

Lemma Subsequence_full {A : Type} (a b : list A) :
  Subsequence a b -> length a = length b -> a = b.
Proof.
  induction 1 as [|x l l' H IH|x l l' H IH]; simpl; intros E.
  - reflexivity.
  - apply Subsequence_length in H. lia.
  - f_equal. apply IH. lia.
Qed.

Lemma firstOccurrences_of_distinct (es : list AnnotationEntity) :
  NoDup (map trimmedText es) -> firstOccurrences es = es.
Proof.
  induction es as [|e es IH]; [reflexivity|].
  cbn [map firstOccurrences]. intros H.
  apply NoDup_cons_iff in H as [Hfresh Hrest].
  rewrite (IH Hrest). f_equal.
  clear IH Hrest. induction es as [|a es IH]; [reflexivity|].
  cbn [filter map] in *.
  destruct (JS.eqb (trimmedText a) (trimmedText e)) eqn:E.
  - apply eqb_eq in E. exfalso. apply Hfresh. left. exact E.
  - cbn [negb]. f_equal. apply IH. intros Hin. apply Hfresh. now right.
Qed.

(** X8.  A batch has at most as many entry-node mutations as typed-node
    mutations, and as many exactly when no two entities have the same
    trimmed text. *)
Theorem entry_nodes_at_most_typed_nodes (tbl : CaseTable) (now : Clock)
  (doc : AnnotationDocument) :
  let b := generateMutationBatch tbl now doc in
  totalNameNodes (summary b) <= totalEntityNodes (summary b)
  /\ (totalNameNodes (summary b) = totalEntityNodes (summary b)
      <-> NoDup (map trimmedText (entities doc))).
Proof.
  cbn [generateMutationBatch summary totalNameNodes totalEntityNodes].
  unfold generateEntityMutations, generateNameMutations.
  rewrite generateEntityMutationsFrom_length, uniqueNames_values, length_map.
  pose proof (firstOccurrences_Subsequence (entities doc)) as S.
  split; [now apply Subsequence_length|]. split.
  - intros E. rewrite <- (Subsequence_full _ _ S E).
    apply firstOccurrences_NoDup.
  - intros H. now rewrite firstOccurrences_of_distinct.
Qed.

Lemma uniqueNames_has (es : list AnnotationEntity)
  (m : OMap.t AnnotationEntity) (k : jsstring) :
  OMap.has k
    (fold_left
       (fun m entity =>
          let key := trim (text entity) in
          if OMap.has key m then m else OMap.set key entity m)
       es m)
  = OMap.has k m || existsb (JS.eqb k) (map trimmedText es).
Proof.
  revert m; induction es as [|e es IH]; intros m.
  - simpl. now rewrite orb_false_r.
  - cbn [fold_left map existsb]. fold (trimmedText e). rewrite IH.
    destruct (OMap.has (trimmedText e) m) eqn:E.
    + destruct (JS.eqb k (trimmedText e)) eqn:Ek; [|reflexivity].
      apply eqb_eq in Ek. subst k. now rewrite E.
    + rewrite OMapFacts.has_set, (eqb_sym (trimmedText e) k).
      now rewrite orb_assoc, (orb_comm (JS.eqb _ _)).
Qed.

(** X9.  The entry-node mutations of two lists of entities in a row are
    those of the first list, followed by those of the first occurrences of
    the second list whose trimmed text does not occur in the first. *)
Theorem generateNameMutations_app (a b : list AnnotationEntity) :
  generateNameMutations (a ++ b)
  = generateNameMutations a
      ++ map nameMutation
           (filter
              (fun e =>
                 negb (existsb (JS.eqb (trimmedText e)) (map trimmedText a)))
              (firstOccurrences b)).
Proof.
  unfold generateNameMutations, uniqueNames.
  rewrite fold_left_app, uniqueNames_loop, map_app. do 2 f_equal.
  apply filter_ext. intros e. now rewrite uniqueNames_has.
Qed.

(** ** More about the typed-node builder *)

Lemma lines_cons (x y : jsstring) (r : list jsstring) :
  lines (x :: y :: r) = x ++ nl ++ lines (y :: r).
Proof. reflexivity. Qed.

(** X10.  The typed-node mutation of an entity is the rendering of the shape
    of its category, and the entry-node mutation that of the entry shape;
    the call carries the upsert flag exactly when the object has a [name_id]
    field, that is for every category but value and benefit, and the object
    has a [node_created_on] field for every category but value and
    document. *)
Theorem typed_mutation_shapes (tbl : CaseTable) (now : jsstring)
  (e : AnnotationEntity) :
  let sh := typedShape tbl now e in
  mutation (entityMutation tbl now e) = render sh
  /\ mutation (nameMutation e)
     = render (nameShape (escapeGraphQL (trim (text e))))
  /\ upsertFlag sh = negb (isValue (category e) || isBenefit (category e))
  /\ existsb (JS.eqb (lit "name_id")) (map fieldName (inputFields sh))
     = upsertFlag sh
  /\ existsb (JS.eqb (lit "node_created_on")) (map fieldName (inputFields sh))
     = negb (isValue (category e) || isDocument (category e)).
Proof.
  intros sh. subst sh. split; [|split].
  - unfold entityMutation, typedShape, render.
    generalize (escapeGraphQL (generateNameId tbl e)) as nameId.
    generalize (escapeGraphQL (trim (text e))) as name. intros name nameId.
    destruct (category e);
      cbn [mutation lines CATEGORY_TYPE_MAP dgraphType isValue isBenefit
             isDocument typeName inputFields upsertFlag selected map
             renderField app];
      rewrite <- ?app_assoc; reflexivity.
  - unfold nameMutation, render, nameShape.
    cbn [mutation lines typeName inputFields upsertFlag selected map
           renderField app].
    rewrite <- ?app_assoc. reflexivity.
  - unfold typedShape. destruct (category e); repeat split.
Qed.

(** X11.  The typed-node mutation text of a value or document entity does
    not depend on the clock; that of an entity of any other category embeds
    the reading, so two readings give the same text only when they are the
    same. *)
Theorem typed_mutation_clock_dependence (tbl : CaseTable)
  (now1 now2 : jsstring) (e : AnnotationEntity) :
  mutation (entityMutation tbl now1 e) = mutation (entityMutation tbl now2 e)
  <-> isValue (category e) || isDocument (category e) = true
      \/ now1 = now2.
Proof.
  split.
  - unfold entityMutation.
    generalize (escapeGraphQL (generateNameId tbl e)) as nameId.
    generalize (escapeGraphQL (trim (text e))) as name. intros name nameId.
    destruct (category e); cbn [mutation isValue isDocument orb]; intros H;
      try (left; reflexivity); right;
      rewrite !lines_cons in H; rewrite <- !app_assoc in H;
      repeat apply app_inv_head in H;
      now apply app_inv_tail in H.
  - intros [H| ->]; [|reflexivity].
    unfold entityMutation.
    destruct (category e); try discriminate; reflexivity.
Qed.

Lemma generateEntityMutationsFrom_app (tbl : CaseTable) (now : Clock)
  (a b : list AnnotationEntity) (k : nat) :
  generateEntityMutationsFrom tbl now k (a ++ b)
  = generateEntityMutationsFrom tbl now k a
      ++ generateEntityMutationsFrom tbl now (k + length a) b.
Proof.
  revert k; induction a as [|e a IH]; intros k; simpl.
  - now rewrite Nat.add_0_r.
  - rewrite IH. do 3 f_equal. lia.
Qed.

Lemma generateEntityMutationsFrom_shift (tbl : CaseTable) (now : Clock)
  (es : list AnnotationEntity) (k j : nat) :
  generateEntityMutationsFrom tbl now (k + j) es
  = generateEntityMutationsFrom tbl (fun i => now (k + i)) j es.
Proof.
  revert j; induction es as [|e es IH]; intros j; simpl; [reflexivity|].
  f_equal. rewrite <- IH. f_equal. lia.
Qed.

(** X12.  The typed-node mutations of two lists of entities in a row are
    those of the first list, followed by those of the second list built
    with the readings of the clock that come after the first list's. *)
Theorem generateEntityMutations_app (tbl : CaseTable) (now : Clock)
  (a b : list AnnotationEntity) :
  generateEntityMutations tbl now (a ++ b)
  = generateEntityMutations tbl now a
      ++ generateEntityMutations tbl (fun k => now (length a + k)) b.
Proof.
  unfold generateEntityMutations.
  rewrite generateEntityMutationsFrom_app. f_equal.
  rewrite <- generateEntityMutationsFrom_shift. f_equal. lia.
Qed.

Lemma filter_keys_twice (keep first : jsstring -> bool) (ks : list jsstring) :
  filter keep (filter first ks) = filter (fun k => first k && keep k) ks.
Proof.
  induction ks as [|k ks IH]; cbn [filter]; [reflexivity|].
  destruct (first k); cbn [filter andb]; [|exact IH].
  destruct (keep k); now rewrite IH.
Qed.

Lemma countCategories_order_loop (es : list AnnotationEntity)
  (m : OMap.t nat) :
  OMap.keys
    (fold_left
       (fun counts e =>
          let key := categoryName (category e) in
          OMap.set key (orZero (OMap.get key counts) + 1) counts)
       es m)
  = OMap.keys m
      ++ filter (fun k => negb (OMap.has k m))
           (firstSeen (map (fun e => categoryName (category e)) es)).
Proof.
  revert m; induction es as [|e es IH]; intros m.
  - simpl. now rewrite app_nil_r.
  - cbn [fold_left map firstSeen filter]. rewrite IH.
    set (key := categoryName (category e)).
    set (v := orZero (OMap.get key m) + 1).
    assert (F : filter (fun k => negb (OMap.has k (OMap.set key v m)))
                  (firstSeen (map (fun e => categoryName (category e)) es))
                = filter (fun k => negb (OMap.has k m))
                    (filter (fun k' => negb (JS.eqb k' key))
                       (firstSeen
                          (map (fun e => categoryName (category e)) es)))).
    { rewrite filter_keys_twice. apply filter_ext. intros k.
      rewrite OMapFacts.has_set, (eqb_sym key k). apply negb_orb. }
    rewrite F. destruct (OMap.has key m) eqn:E.
    + now rewrite OMapFacts.keys_set_present.
    + rewrite OMapFacts.set_absent by assumption.
      unfold OMap.keys at 1. rewrite map_app, <- app_assoc. reflexivity.
Qed.

(** X13.  The record of counts lists the categories in the order in which
    they first occur among the entities. *)
Theorem categoryCounts_in_first_seen_order (tbl : CaseTable) (now : Clock)
  (doc : AnnotationDocument) :
  OMap.keys (categoryCounts (summary (generateMutationBatch tbl now doc)))
  = firstSeen (map (fun e => categoryName (category e)) (entities doc)).
Proof.
  cbn [generateMutationBatch summary categoryCounts]. unfold countCategories.
  rewrite countCategories_order_loop. cbn [OMap.keys OMap.empty map app].
  induction (firstSeen _) as [|k ks IH]; [reflexivity|].
  cbn [filter]. unfold OMap.has at 1. cbn [OMap.get negb]. now rewrite IH.
Qed.

(** ** Facts about the command-line tools *)

Section ToolFacts.

Variable h : Host.
Implicit Types (transport : Transport h) (endpoint : option jsstring)
  (w : World) (ms : list GeneratedMutation).

Lemma executeMutation_spec transport endpoint m w :
  let outcome := transport (length (calls w)) (requestOf h endpoint m) in
  success (fst (executeMutation h transport endpoint m w)) = accepted outcome
  /\ snd (executeMutation h transport endpoint m w)
     = {| console := console w;
          calls := calls w ++ [requestOf h endpoint m];
          sent :=
            sent w
              ++ (if wentOut outcome then [requestOf h endpoint m]
                  else []) |}.
Proof.
  unfold executeMutation. fold (requestOf h endpoint m). cbv zeta.
  destruct (transport (length (calls w)) (requestOf h endpoint m))
    as [message|message|data [[|e es]|]]; now split.
Qed.

Lemma outcomesFrom_app transport endpoint base ms ms' :
  outcomesFrom h transport endpoint base (ms ++ ms')
  = outcomesFrom h transport endpoint base ms
      ++ outcomesFrom h transport endpoint (base + length ms) ms'.
Proof.
  revert base; induction ms as [|m ms IH]; intros base; simpl.
  - now rewrite Nat.add_0_r.
  - rewrite IH. do 3 f_equal. lia.
Qed.

Lemma sentFrom_app transport endpoint base ms ms' :
  sentFrom h transport endpoint base (ms ++ ms')
  = sentFrom h transport endpoint base ms
      ++ sentFrom h transport endpoint (base + length ms) ms'.
Proof.
  revert base; induction ms as [|m ms IH]; intros base; simpl.
  - now rewrite Nat.add_0_r.
  - rewrite IH, <- app_assoc. do 3 f_equal. lia.
Qed.

Lemma sentFrom_length transport endpoint base ms :
  length (sentFrom h transport endpoint base ms) <= length ms.
Proof.
  revert base; induction ms as [|m ms IH]; intros base; simpl; [lia|].
  rewrite length_app. specialize (IH (S base)).
  destruct (wentOut _); simpl; lia.
Qed.

(** The loop of a phase: what it calls, what goes out and what it counts. *)
Lemma executeAll_spec transport endpoint ms succeeded failed w :
  let outcomes := outcomesFrom h transport endpoint (length (calls w)) ms in
  let result := executeAll h transport endpoint ms succeeded failed w in
  calls (snd result) = calls w ++ map (requestOf h endpoint) ms
  /\ sent (snd result)
     = sent w ++ sentFrom h transport endpoint (length (calls w)) ms
  /\ fst (fst result) = succeeded + length (filter accepted outcomes)
  /\ snd (fst result)
     = failed + length (filter (fun o => negb (accepted o)) outcomes).
Proof.
  revert succeeded failed w; induction ms as [|m ms IH];
    intros succeeded failed w.
  - simpl. now rewrite !app_nil_r, !Nat.add_0_r.
  - cbn [executeAll outcomesFrom sentFrom map filter].
    destruct (executeMutation_spec transport endpoint m w) as [Hs Hw].
    destruct (executeMutation h transport endpoint m w) as [result w1].
    cbn [fst snd] in Hs, Hw. rewrite Hs. subst w1.
    destruct (accepted (transport (length (calls w)) (requestOf h endpoint m))).
    + match goal with
      | |- context [executeAll h transport endpoint ms ?s ?f ?w'] =>
          specialize (IH s f w')
      end.
      cbn [log sent calls] in IH. rewrite length_app in IH.
      cbn [length] in IH. rewrite Nat.add_1_r in IH. cbv zeta in IH.
      destruct IH as (IH0 & IH1 & IH2 & IH3).
      cbv zeta. rewrite IH0, IH1, IH2, IH3, <- !app_assoc.
      cbn [negb length app]. repeat split; lia.
    + match goal with
      | |- context [executeAll h transport endpoint ms ?s ?f ?w'] =>
          specialize (IH s f w')
      end.
      cbn [logError sent calls] in IH. rewrite length_app in IH.
      cbn [length] in IH. rewrite Nat.add_1_r in IH. cbv zeta in IH.
      destruct IH as (IH0 & IH1 & IH2 & IH3).
      cbv zeta. rewrite IH0, IH1, IH2, IH3, <- !app_assoc.
      cbn [negb length app]. repeat split; lia.
Qed.

Lemma no_refusal_iff {J : Type} (outcomes : list (FetchOutcome J)) :
  length (filter (fun o => negb (accepted o)) outcomes) = 0
  <-> forallb accepted outcomes = true.
Proof.
  induction outcomes as [|o os IH]; [now split|].
  cbn [filter forallb]. destruct (accepted o); cbn [negb andb length].
  - exact IH.
  - split; [lia | discriminate].
Qed.

End ToolFacts.

(** What the loader does once it has a document. *)
Lemma loadMain_on_document (h : Host) (transport : Transport h)
  (args : list jsstring) (doc : AnnotationDocument) :
  inputOf h args = Some doc ->
  let batch := generateMutationBatch (caseTable h) (clock h) doc in
  let ms := nameNodes batch ++ entityNodes batch in
  let run := loadMain h transport args in
  calls (final run) = map (requestOf h (endpointOf args)) ms
  /\ sent (final run) = sentFrom h transport (endpointOf args) 0 ms
  /\ exitCode run
     = if forallb accepted (outcomesFrom h transport (endpointOf args) 0 ms)
       then 0 else 1.
Proof.
  intros H batch ms run. subst run ms. unfold inputOf in H. unfold loadMain.
  destruct (filePathOf args) as [[|c p]|]; try discriminate.
  destruct (readFile h (resolve h (c :: p))) as [raw|]; try discriminate.
  destruct (parseAnnotation h raw) as [annotation|]; try discriminate.
  injection H as ->. fold batch.
  change (relationships batch) with (@nil GeneratedMutation).
  cbn [length Nat.ltb Nat.leb].
  match goal with
  | |- context [executeAll h transport ?ep (nameNodes batch) 0 0 ?w] =>
      pose proof (executeAll_spec h transport ep (nameNodes batch) 0 0 w) as P1;
      destruct (executeAll h transport ep (nameNodes batch) 0 0 w)
        as [[s1 f1] w1]
  end.
  cbv zeta in P1. cbn [fst snd log sent calls initial app length] in P1.
  destruct P1 as (C1 & S1 & -> & ->).
  match goal with
  | |- context [executeAll h transport ?ep (entityNodes batch) 0 0 ?w] =>
      pose proof (executeAll_spec h transport ep (entityNodes batch) 0 0 w)
        as P2;
      destruct (executeAll h transport ep (entityNodes batch) 0 0 w)
        as [[s2 f2] w2]
  end.
  cbv zeta in P2. cbn [fst snd log sent calls] in P2. rewrite C1, S1 in P2.
  rewrite length_map in P2.
  destruct P2 as (C2 & S2 & -> & ->).
  rewrite outcomesFrom_app, sentFrom_app, forallb_app, map_app.
  cbn [Nat.add].
  set (o1 := outcomesFrom h transport (endpointOf args) 0 (nameNodes batch)).
  set (o2 := outcomesFrom h transport (endpointOf args)
               (length (nameNodes batch)) (entityNodes batch)).
  pose proof (no_refusal_iff o1) as N1.
  pose proof (no_refusal_iff o2) as N2.
  destruct (length (filter (fun o => negb (accepted o)) o1)) as [|n1].
  - rewrite (proj1 N1 eq_refl). cbn [Nat.ltb Nat.leb orb andb].
    destruct (length (filter (fun o => negb (accepted o)) o2)) as [|n2].
    + rewrite (proj1 N2 eq_refl). cbn [exitCode final log sent calls].
      now repeat split.
    + destruct (forallb accepted o2);
        [destruct N2 as [_ N2]; specialize (N2 eq_refl); discriminate|].
      cbn [exitCode final log sent calls Nat.ltb Nat.leb]. now repeat split.
  - destruct (forallb accepted o1);
      [destruct N1 as [_ N1]; specialize (N1 eq_refl); discriminate|].
    cbn [exitCode final log sent calls Nat.ltb Nat.leb orb andb].
    now repeat split.
Qed.

(** X14.  Once the loader has a document it calls [fetch] once for every
    entry-node mutation and then once for every typed-node mutation, in
    order and with the one endpoint, whatever the outcomes; it makes no
    other call.  The requests that go out are those of the calls that
    [fetch] does not refuse before sending, so their number is at most the
    sum of the two totals of the summary. *)
Theorem loader_sends_every_mutation (h : Host) (transport : Transport h)
  (args : list jsstring) (doc : AnnotationDocument) :
  inputOf h args = Some doc ->
  let batch := generateMutationBatch (caseTable h) (clock h) doc in
  let ms := nameNodes batch ++ entityNodes batch in
  let run := loadMain h transport args in
  calls (final run) = map (requestOf h (endpointOf args)) ms
  /\ sent (final run) = sentFrom h transport (endpointOf args) 0 ms
  /\ length (calls (final run))
     = totalNameNodes (summary batch) + totalEntityNodes (summary batch)
  /\ length (sent (final run))
     <= totalNameNodes (summary batch) + totalEntityNodes (summary batch).
Proof.
  intros H batch ms run.
  destruct (loadMain_on_document h transport args doc H) as (C & S & _).
  cbv zeta in C, S. fold batch ms run in C, S.
  split; [exact C|]. split; [exact S|]. split.
  - rewrite C, length_map. unfold ms. now rewrite length_app.
  - rewrite S.
    pose proof (sentFrom_length h transport (endpointOf args) 0 ms) as L.
    unfold ms in L at 2. now rewrite length_app in L.
Qed.

Lemma loader_sends_every_mutation_witness :
  inputOf sampleHost [lit "--endpoint="; lit "nha.json"] = Some nhaDocument
  /\ length
       (calls (final (loadMain sampleHost noEmptyUrl
                        [lit "--endpoint="; lit "nha.json"]))) = 3
  /\ sent (final (loadMain sampleHost noEmptyUrl
                    [lit "--endpoint="; lit "nha.json"])) = []
  /\ map url
       (sent (final (loadMain sampleHost noEmptyUrl
                       [lit "--verbose"; lit "nha.json"])))
     = [DEFAULT_ENDPOINT; DEFAULT_ENDPOINT; DEFAULT_ENDPOINT].
Proof.
  split; [reflexivity|].
  pose proof (loader_sends_every_mutation sampleHost noEmptyUrl
                [lit "--endpoint="; lit "nha.json"] nhaDocument eq_refl) as A.
  pose proof (loader_sends_every_mutation sampleHost noEmptyUrl
                [lit "--verbose"; lit "nha.json"] nhaDocument eq_refl) as B.
  cbv zeta in A, B.
  destruct A as (_ & A2 & A3 & _). destruct B as (_ & B2 & _).
  split; [rewrite A3; reflexivity|].
  split; [rewrite A2; reflexivity|].
  rewrite B2. reflexivity.
Defined.

(** X15.  Once the loader has a document, it ends with exit code 0 when
    every request was accepted, and with exit code 1 when one was refused
    or raised an error. *)
Theorem loader_exit_code (h : Host) (transport : Transport h)
  (args : list jsstring) (doc : AnnotationDocument) :
  inputOf h args = Some doc ->
  let batch := generateMutationBatch (caseTable h) (clock h) doc in
  exitCode (loadMain h transport args)
  = if forallb accepted
         (outcomesFrom h transport (endpointOf args) 0
            (nameNodes batch ++ entityNodes batch))
    then 0 else 1.
Proof.
  intros H batch.
  now destruct (loadMain_on_document h transport args doc H) as (_ & _ & E).
Qed.

Lemma loader_exit_code_witness :
  inputOf sampleHost [lit "nha.json"] = Some nhaDocument
  /\ exitCode (loadMain sampleHost acceptAll [lit "nha.json"]) = 0
  /\ exitCode (loadMain sampleHost refuseSecond [lit "nha.json"]) = 1.
Proof.
  split; [reflexivity|]. split.
  - rewrite (loader_exit_code sampleHost acceptAll [lit "nha.json"]
               nhaDocument eq_refl).
    reflexivity.
  - rewrite (loader_exit_code sampleHost refuseSecond [lit "nha.json"]
               nhaDocument eq_refl).
    reflexivity.
Defined.

Lemma printMutations_sent (ms : list GeneratedMutation) (w : World) :
  sent (printMutations ms w) = sent w.
Proof.
  revert w; induction ms as [|m ms IH]; intros w; [reflexivity|].
  cbn [printMutations]. now rewrite IH.
Qed.

Lemma printCounts_sent (counts : list (jsstring * nat)) (w : World) :
  sent (printCounts counts w) = sent w.
Proof.
  revert w; induction counts as [|[cat n] counts IH]; intros w;
    [reflexivity|].
  cbn [printCounts]. now rewrite IH.
Qed.

(** X16.  Without a document (no file path among the arguments, or an empty
    one, a file that cannot be read, a content that is no document) both
    tools end with exit code 1, and the loader sends no request. *)
Theorem tools_without_input (h : Host) (transport : Transport h)
  (args : list jsstring) :
  inputOf h args = None ->
  exitCode (loadMain h transport args) = 1
  /\ sent (final (loadMain h transport args)) = []
  /\ exitCode (previewMain h args) = 1.
Proof.
  unfold inputOf, loadMain, previewMain. intros H.
  destruct (filePathOf args) as [[|c p]|]; [now repeat split| |now repeat split].
  destruct (readFile h (resolve h (c :: p))) as [raw|]; [|now repeat split].
  destruct (parseAnnotation h raw); [discriminate | now repeat split].
Qed.

Lemma tools_without_input_witness :
  inputOf sampleHost [lit "--endpoint=http://dgraph:8080/graphql"] = None
  /\ exitCode
       (loadMain sampleHost acceptAll
          [lit "--endpoint=http://dgraph:8080/graphql"]) = 1.
Proof.
  split; [reflexivity|].
  exact (proj1 (tools_without_input sampleHost acceptAll
                  [lit "--endpoint=http://dgraph:8080/graphql"] eq_refl)).
Defined.

(** X17.  The preview sends no request, whatever its arguments, and ends
    with exit code 0 exactly when it has a document. *)
Theorem preview_sends_nothing (h : Host) (args : list jsstring) :
  sent (final (previewMain h args)) = []
  /\ exitCode (previewMain h args)
     = match inputOf h args with
       | Some _ => 0
       | None => 1
       end.
Proof.
  unfold inputOf, previewMain.
  destruct (filePathOf args) as [[|c p]|]; [now split| |now split].
  destruct (readFile h (resolve h (c :: p))) as [raw|]; [|now split].
  destruct (parseAnnotation h raw) as [annotation|]; [|now split].
  split; [|reflexivity].
  cbn [final generateMutationBatch relationships length Nat.ltb Nat.leb].
  rewrite !printMutations_sent. cbn [log sent].
  rewrite !printMutations_sent. cbn [log sent].
  now rewrite printCounts_sent.
Qed.

Lemma split_head (sep : N) (s : jsstring) :
  exists rest, split sep s = upTo sep s :: rest.
Proof.
  induction s as [|c s [rest IH]]; [now exists []|].
  cbn [split upTo]. destruct (N.eqb c sep); [now eexists|].
  rewrite IH. now eexists.
Qed.

(** X18.  The endpoint of the loader is the default when no argument starts
    with [--endpoint=]; otherwise it is what follows [--endpoint=] in the
    first such argument, up to the next equals sign: the rest of a value
    that holds an equals sign is dropped.  The endpoint is never
    undefined. *)
Theorem endpointOf_value (args : list jsstring) :
  endpointOf args
  = match find (isPrefixOf (lit "--endpoint=")) args with
    | Some a => Some (upTo 61 (skipn 11 a))
    | None => Some DEFAULT_ENDPOINT
    end
  /\ endpointOf [lit "nha.json"; lit "--endpoint=http://dgraph:8080/graphql"]
     = Some (lit "http://dgraph:8080/graphql")
  /\ endpointOf [lit "--endpoint=http://dgraph:8080/graphql?ns=1"]
     = Some (lit "http://dgraph:8080/graphql?ns").
Proof.
  split; [|now split].
  unfold endpointOf.
  destruct (find (isPrefixOf (lit "--endpoint=")) args) as [a|] eqn:F;
    [|reflexivity].
  apply find_some in F as [_ F].
  apply isPrefixOf_spec in F as [post ->].
  destruct (split_head 61 post) as [rest E].
  change (lit "--endpoint=" ++ post)
    with (45 :: 45 :: 101 :: 110 :: 100 :: 112 :: 111 :: 105 :: 110 :: 116
            :: 61 :: post)%N.
  cbn [split N.eqb Pos.eqb skipn]. rewrite E. reflexivity.
Qed.

Lemma find_filter_weaker {A : Type} (q r : A -> bool) (l : list A) :
  (forall x, q x = true -> r x = true) ->
  find q (filter r l) = find q l.
Proof.
  intros H. induction l as [|x l IH]; [reflexivity|].
  cbn [filter find]. destruct (q x) eqn:Q.
  - rewrite (H x Q). cbn [find]. now rewrite Q.
  - destruct (r x); [cbn [find]; now rewrite Q | exact IH].
Qed.

(** X19.  The tools look at their arguments for the first one that does not
    start with two dashes, the loader also for the first that starts with
    [--endpoint=]: the preview ignores every flag ([--dry] among them) and
    every argument after the file path, the loader every flag but
    [--endpoint=]. *)
Theorem tools_ignore_other_arguments (h : Host) (transport : Transport h)
  (args : list jsstring) :
  previewMain h args
  = previewMain h
      (firstn 1 (filter (fun a => negb (isPrefixOf (lit "--") a)) args))
  /\ loadMain h transport args
     = loadMain h transport
         (filter
            (fun a =>
               negb (isPrefixOf (lit "--") a)
               || isPrefixOf (lit "--endpoint=") a)
            args).
Proof.
  split.
  - unfold previewMain. f_equal. unfold filePathOf.
    induction args as [|a args IH]; [reflexivity|].
    cbn [filter find].
    destruct (negb (isPrefixOf (lit "--") a)) eqn:E.
    + cbn [firstn find]. now rewrite E.
    + exact IH.
  - unfold loadMain, endpointOf, filePathOf.
    rewrite !find_filter_weaker; [reflexivity| |].
    + intros x Hx. now rewrite Hx, orb_true_r.
    + intros x Hx. now rewrite Hx.
Qed.

Lemma outcomesFrom_length (h : Host) (transport : Transport h)
  (endpoint : option jsstring) (base : nat) (ms : list GeneratedMutation) :
  length (outcomesFrom h transport endpoint base ms) = length ms.
Proof.
  revert base; induction ms as [|m ms IH]; intros base; simpl; congruence.
Qed.

(** X20.  A phase of the loader calls [fetch] once for every mutation, in
    order, and goes on after a refusal or an error; the requests that go
    out are those of the calls that [fetch] does not refuse before sending;
    the two counters add up to the number of mutations, and the first one
    is the number of accepted requests. *)
Theorem phase_counts (h : Host) (transport : Transport h)
  (endpoint : option jsstring) (ms : list GeneratedMutation) (w : World) :
  let result := executeAll h transport endpoint ms 0 0 w in
  let outcomes := outcomesFrom h transport endpoint (length (calls w)) ms in
  calls (snd result) = calls w ++ map (requestOf h endpoint) ms
  /\ sent (snd result)
     = sent w ++ sentFrom h transport endpoint (length (calls w)) ms
  /\ fst (fst result) + snd (fst result) = length ms
  /\ fst (fst result) = length (filter accepted outcomes).
Proof.
  intros result outcomes.
  destruct (executeAll_spec h transport endpoint ms 0 0 w)
    as (C & S & A & R).
  fold result outcomes in C, S, A, R. cbv zeta in C, S, A, R.
  repeat split; [assumption|assumption| |assumption].
  rewrite A, R. cbn [Nat.add].
  rewrite <- (outcomesFrom_length h transport endpoint (length (calls w)) ms).
  fold outcomes. clear. induction outcomes as [|o os IH]; [reflexivity|].
  cbn [filter]. destruct (accepted o); cbn [negb length]; lia.
Qed.

(** ** The entry nodes of a batch *)

Lemma nameMutation_text (e : AnnotationEntity) :
  mutation (nameMutation e)
  = render (nameShape (escapeGraphQL (trimmedText e))).
Proof.
  unfold nameMutation, render, nameShape, trimmedText.
  cbn [mutation lines typeName inputFields upsertFlag selected map
         renderField app].
  rewrite <- ?app_assoc. reflexivity.
Qed.

Lemma nameMutation_text_inj (e1 e2 : AnnotationEntity) :
  mutation (nameMutation e1) = mutation (nameMutation e2) ->
  trimmedText e1 = trimmedText e2.
Proof.
  unfold nameMutation, trimmedText. cbn [mutation]. intros H.
  rewrite !lines_cons in H. rewrite <- !app_assoc in H.
  repeat apply app_inv_head in H.
  apply app_inv_tail in H. now apply escapeGraphQL_inj.
Qed.

Lemma NoDup_map_finer {A B C : Type} (f : A -> B) (g : A -> C) (l : list A) :
  (forall x y, f x = f y -> g x = g y) ->
  NoDup (map g l) -> NoDup (map f l).
Proof.
  intros Hfg. induction l as [|x l IH]; cbn [map]; intros H;
    [constructor|].
  apply NoDup_cons_iff in H as [Hx Hl].
  apply NoDup_cons; [|now apply IH].
  contradict Hx. apply in_map_iff in Hx as [y [Hy Hin]].
  apply in_map_iff. exists y. split; [|assumption].
  now apply Hfg.
Qed.

(** X21.  No two entry-node mutations of a batch have the same text. *)
Theorem entry_node_mutations_distinct (es : list AnnotationEntity) :
  NoDup (map mutation (generateNameMutations es)).
Proof.
  unfold generateNameMutations. rewrite uniqueNames_values, map_map.
  apply (NoDup_map_finer _ trimmedText).
  - intros x y. apply nameMutation_text_inj.
  - apply firstOccurrences_NoDup.
Qed.

(** X22.  For every entity of the input, the entry-node mutations hold the
    one that upserts the entry node of its trimmed text: the entry nodes
    that the typed-node mutations name are all requested. *)
Theorem every_entity_has_its_entry_node (es : list AnnotationEntity) :
  Forall
    (fun e =>
       In (render (nameShape (escapeGraphQL (trimmedText e))))
         (map mutation (generateNameMutations es)))
    es.
Proof.
  apply Forall_forall. intros e He.
  assert (K : In (trimmedText e) (map trimmedText (firstOccurrences es))).
  { apply (proj1 (firstOccurrences_covers es (trimmedText e))).
    now apply in_map. }
  apply in_map_iff in K as [r [Hr Hin]].
  unfold generateNameMutations. rewrite uniqueNames_values, map_map.
  apply in_map_iff. exists r. split; [|assumption].
  now rewrite nameMutation_text, Hr.
Qed.
